(** * Advocate's Digital Diary: persistence, backup codec and merge-import

    A shallow embedding of the data layer of the diary
    ([src/types.ts], [src/utils/storage.ts]) and of the state updaters of
    [src/App.tsx] ([executeImport], [executePurge], [addOrUpdateCase],
    [confirmDelete], [CaseForm.handleSubmit]), with the properties the
    specification states about them.

    Conventions.
    - A JavaScript string is the list of its UTF-16 code units
      ([jsstring]); [js "..."] writes an ASCII literal.
    - A typed value of [types.ts] is a Rocq record; its run-time
      representation (what [JSON.stringify] sees and [JSON.parse] builds)
      is a [JsValue], related to the record by [js_of_DiaryData].
    - A React state updater [setData(prev => ...)] is the function from
      [prev] to the new value; the pieces of component state it closes
      over are explicit arguments.
    - [localStorage] is a finite map from keys to strings.
    - A JavaScript [throw] is the [Throw] completion.
    - The built-ins the code calls ([JSON.parse], [JSON.stringify],
      [parseInt], [toString] of an integer, the [Blob] constructor,
      [FileReader.readAsText]) are modelled after ECMA-262 and the File
      API. Time values are integers. A JSON number is the exact decimal
      value of its literal; [Number::toString] of a double is a
      parameter of [JSON.stringify], and no typed value of the diary
      holds a number. *)

From Stdlib Require Import ZArith NArith Ascii String Lia.
From stdpp Require Import gmap list strings.

Open Scope N_scope.
#[global] Set Warnings "-clear-no-such-hyp".

(** ** Strings *)

Abbreviation jsstring := (list N).

Definition js (s : string) : jsstring :=
  map N_of_ascii (list_ascii_of_string s).

(** Truthiness of a string: the empty string is the only falsy one. *)
Definition truthy_str (s : jsstring) : bool :=
  match s with [] => false | _ :: _ => true end.

(** [a || b] on strings. *)
Definition str_or (a b : jsstring) : jsstring :=
  if truthy_str a then a else b.

(** ** Record schema ([types.ts]) *)

Module Hearing.
Record t := mk { id : jsstring; date : jsstring; note : jsstring }.
End Hearing.

Inductive CaseStatus := ONGOING | DISPOSED | STAYED | APPEALED | DISMISSED.

Definition CaseStatus_value (s : CaseStatus) : jsstring :=
  match s with
  | ONGOING => js "Ongoing"
  | DISPOSED => js "Disposed"
  | STAYED => js "Stayed"
  | APPEALED => js "Appealed"
  | DISMISSED => js "Dismissed"
  end.

Module LegalCase.
Record t := mk {
  id : jsstring;
  title : jsstring;
  referenceNumber : jsstring;
  courtName : jsstring;
  description : jsstring;
  status : CaseStatus;
  nextHearingDate : jsstring;
  history : list Hearing.t;
  createdAt : jsstring
}.
End LegalCase.

Module DiaryData.
Record t := mk {
  cases : list LegalCase.t;
  lastBackupDate : option jsstring;
  advocateName : jsstring
}.
End DiaryData.

#[global] Instance Hearing_eq_dec : EqDecision Hearing.t.
Proof. solve_decision. Defined.
#[global] Instance CaseStatus_eq_dec : EqDecision CaseStatus.
Proof. solve_decision. Defined.
#[global] Instance LegalCase_eq_dec : EqDecision LegalCase.t.
Proof. solve_decision. Defined.
#[global] Instance DiaryData_eq_dec : EqDecision DiaryData.t.
Proof. solve_decision. Defined.

(** The ids of a case list, in list order. *)
Definition case_ids (l : list LegalCase.t) : list jsstring :=
  LegalCase.id <$> l.

(** ** Array helpers *)

(** [arr.find(p)]: the first element satisfying [p], if any. *)
Definition array_find {A} (P : A → Prop) `{∀ x, Decision (P x)}
    (l : list A) : option A :=
  snd <$> list_find P l.

(** [arr.findIndex(p)]: the index of the first element satisfying [p],
    or [-1]. *)
Definition findIndex {A} (P : A → Prop) `{∀ x, Decision (P x)}
    (l : list A) : Z :=
  match list_find P l with
  | Some (i, _) => Z.of_nat i
  | None => (-1)%Z
  end.

(** ** State updaters of [App.tsx] *)

Definition empty_diary : DiaryData.t :=
  DiaryData.mk [] None (js "Counsel").

(** One step of the [forEach] of [executeImport]: push the imported case
    unless [mergedCases] already holds a case with its id. *)
Definition import_step (mergedCases : list LegalCase.t)
    (importedCase : LegalCase.t) : list LegalCase.t :=
  match array_find (λ c, LegalCase.id c = LegalCase.id importedCase)
          mergedCases with
  | None => mergedCases ++ [importedCase]
  | Some _ => mergedCases
  end.

(** [executeImport]: the new [data] for staged import [pendingImportData]
    and previous value [prev]. Nothing is staged: [data] is not set. *)
Definition executeImport (pendingImportData : option DiaryData.t)
    (prev : DiaryData.t) : DiaryData.t :=
  match pendingImportData with
  | None => prev
  | Some pending =>
      let mergedCases :=
        fold_left import_step (DiaryData.cases pending)
                  (DiaryData.cases prev) in
      DiaryData.mk
        mergedCases
        (DiaryData.lastBackupDate prev)
        (str_or (DiaryData.advocateName pending)
                (DiaryData.advocateName prev))
  end.

(** The merge of the specification: [incoming] is staged and confirmed. *)
Definition merge (current incoming : DiaryData.t) : DiaryData.t :=
  executeImport (Some incoming) current.

Abbreviation localStorage := (gmap jsstring jsstring).

Definition STORAGE_KEY : jsstring := js "advocate_diary_data".
Definition BACKUP_REMINDER_KEY : jsstring := js "last_backup_prompt_ts".

(** [executePurge]: the new [data], and the store without the reminder
    slot. *)
Definition executePurge (store : localStorage)
    : DiaryData.t * localStorage :=
  let reset := DiaryData.mk [] None (js "Counsel") in
  (reset, delete (js "last_backup_prompt_ts") store).

(** [addOrUpdateCase]: replace at the index of the first case with the
    id of [c], or put [c] in front. *)
Definition addOrUpdateCase (c : LegalCase.t) (prev : DiaryData.t)
    : DiaryData.t :=
  let existingIdx :=
    findIndex (λ item, LegalCase.id item = LegalCase.id c)
              (DiaryData.cases prev) in
  let newCases :=
    if (0 <=? existingIdx)%Z
    then <[Z.to_nat existingIdx := c]> (DiaryData.cases prev)
    else c :: DiaryData.cases prev in
  DiaryData.mk newCases (DiaryData.lastBackupDate prev)
               (DiaryData.advocateName prev).

(** [confirmDelete]: drop every case with the id of [caseToDelete]. *)
Definition confirmDelete (caseToDelete : option LegalCase.t)
    (prev : DiaryData.t) : DiaryData.t :=
  match caseToDelete with
  | None => prev
  | Some target =>
      let idToDelete := LegalCase.id target in
      DiaryData.mk
        (filter (λ c, LegalCase.id c ≠ idToDelete) (DiaryData.cases prev))
        (DiaryData.lastBackupDate prev)
        (DiaryData.advocateName prev)
  end.

(** ** [CaseForm] of [App.tsx] *)

(** What the form reads from the platform: the two [crypto.randomUUID()]
    results in call order, [new Date().toISOString()], and
    [Date.prototype.toLocaleDateString] with the options of
    [formatDate]. *)
Record Platform := {
  uuid_hearing : jsstring;
  uuid_case : jsstring;
  now_iso : jsstring;
  toLocaleDateString : jsstring → jsstring
}.

(** [formatDate], the helper for UI formatting. *)
Definition formatDate (pf : Platform) (dateStr : jsstring) : jsstring :=
  if truthy_str dateStr then toLocaleDateString pf dateStr else js "TBD".

Module CaseForm.
(** The [useState] cells of the form. *)
Record state := mk {
  title : jsstring;
  refNum : jsstring;
  court : jsstring;
  desc : jsstring;
  status : CaseStatus;
  nextDate : jsstring;
  hearingNote : jsstring
}.

(** The initial values of the cells. *)
Definition init (initialData : option LegalCase.t) : state :=
  match initialData with
  | Some d =>
      mk (LegalCase.title d) (LegalCase.referenceNumber d)
         (LegalCase.courtName d) (LegalCase.description d)
         (LegalCase.status d) (LegalCase.nextHearingDate d) []
  | None => mk [] [] [] [] ONGOING [] []
  end.

(** [handleSubmit]: the record handed to [onSave], or [None] when the
    form alerts and returns. *)
Definition handleSubmit (pf : Platform)
    (initialData : option LegalCase.t) (st : state)
    : option LegalCase.t :=
  if negb (truthy_str (title st)) || negb (truthy_str (court st))
  then None
  else
    let history : list Hearing.t :=
      match initialData with
      | Some d => LegalCase.history d
      | None => []
      end in
    let history :=
      match initialData with
      | Some d =>
          if truthy_str (LegalCase.nextHearingDate d)
             && negb (bool_decide
                        (nextDate st = LegalCase.nextHearingDate d))
          then history ++
               [Hearing.mk
                  (uuid_hearing pf)
                  (LegalCase.nextHearingDate d)
                  (str_or (hearingNote st)
                          (js "Hearing rescheduled to "
                           ++ formatDate pf (nextDate st)))]
          else history
      | None => history
      end in
    Some (LegalCase.mk
            (match initialData with
             | Some d => str_or (LegalCase.id d) (uuid_case pf)
             | None => uuid_case pf
             end)
            (title st) (refNum st) (court st) (desc st) (status st)
            (nextDate st) history
            (match initialData with
             | Some d => str_or (LegalCase.createdAt d) (now_iso pf)
             | None => now_iso pf
             end)).
End CaseForm.

(** ** Run-time values and completions *)

Inductive JsError := SyntaxError | TypeError.

Inductive completion (A : Type) :=
| Normal (a : A)
| Throw (e : JsError).
Arguments Normal {A} a.
Arguments Throw {A} e.

#[global] Instance completion_ret : MRet completion := λ A a, Normal a.

#[global] Instance completion_bind : MBind completion := λ A B k c,
  match c with
  | Normal a => k a
  | Throw e => Throw e
  end.

(** [try { body } catch (e) { handler }]. *)
Definition try_catch {A} (body : completion A)
    (handler : JsError → completion A) : completion A :=
  match body with
  | Normal a => Normal a
  | Throw e => handler e
  end.

(** A JSON number: the exact decimal value
    [(-1)^neg * mant * 10^exp10] of its literal, not rounded to a
    double. *)
Record decimal := { neg : bool; mant : N; exp10 : Z }.

(** A value that [JSON.parse] can build. An object is the list of its
    own properties in enumeration order. *)
#[warnings="-register-all"]
Inductive JsValue :=
| JNull
| JBool (b : bool)
| JNum (n : decimal)
| JStr (s : jsstring)
| JArr (elems : list JsValue)
| JObj (props : list (jsstring * JsValue)).

(** [ToBoolean] of a number: false for the literals whose double is
    [+0] or [-0], that is, whose magnitude is at most [2^-1075]. *)
Definition number_truthy (n : decimal) : bool :=
  if mant n =? 0 then false
  else if (0 <=? exp10 n)%Z then true
  else (10 ^ (- exp10 n) <? Z.of_N (mant n) * 2 ^ 1075)%Z.

(** [ToBoolean]. *)
Definition truthy (v : JsValue) : bool :=
  match v with
  | JNull => false
  | JBool b => b
  | JNum n => number_truthy n
  | JStr s => truthy_str s
  | JArr _ | JObj _ => true
  end.

(** The value of the own property [key] of an object. *)
Fixpoint obj_lookup (key : jsstring) (props : list (jsstring * JsValue))
    : option JsValue :=
  match props with
  | [] => None
  | (k, v) :: rest =>
      if bool_decide (k = key) then Some v else obj_lookup key rest
  end.

(** [v.cases]: reading a property of [null] throws; only an object can
    own a property of this name; [None] is [undefined]. *)
Definition get_cases (v : JsValue) : completion (option JsValue) :=
  match v with
  | JNull => Throw TypeError
  | JObj props => Normal (obj_lookup (js "cases") props)
  | _ => Normal None
  end.

(** [Array.isArray]. *)
Definition isArray (v : option JsValue) : bool :=
  match v with
  | Some (JArr _) => true
  | _ => false
  end.

(** ** [JSON.parse] (ECMA-262, 25.5.1)

    The text is a string; the result of a successful parse is the value
    and the unread rest of the text. *)

(** JSON white space: tab, line feed, carriage return, space. *)
Definition is_json_ws (c : N) : bool :=
  (c =? 9) || (c =? 10) || (c =? 13) || (c =? 32).

Fixpoint skip_ws (s : jsstring) : jsstring :=
  match s with
  | c :: r => if is_json_ws c then skip_ws r else s
  | [] => []
  end.

Definition is_digit (c : N) : bool := (48 <=? c) && (c <=? 57).

Definition hex_digit (c : N) : option N :=
  if (48 <=? c) && (c <=? 57) then Some (c - 48)
  else if (97 <=? c) && (c <=? 102) then Some (c - 87)
  else if (65 <=? c) && (c <=? 70) then Some (c - 55)
  else None.

Definition hex4 (a b c d : N) : option N :=
  x ← hex_digit a; y ← hex_digit b; z ← hex_digit c; w ← hex_digit d;
  Some (((x * 16 + y) * 16 + z) * 16 + w).

(** The character after a backslash, other than [u]. *)
Definition simple_escape (c : N) : option N :=
  if c =? 34 then Some 34          (* escaped quote *)
  else if c =? 92 then Some 92     (* escaped backslash *)
  else if c =? 47 then Some 47     (* escaped slash *)
  else if c =? 98 then Some 8      (* b: backspace *)
  else if c =? 102 then Some 12    (* f: form feed *)
  else if c =? 110 then Some 10    (* n: line feed *)
  else if c =? 114 then Some 13    (* r: carriage return *)
  else if c =? 116 then Some 9     (* t: tab *)
  else None.

(** The characters of a string literal after its opening quote, up to
    and including the closing quote. *)
Fixpoint parse_chars (s : jsstring) : option (jsstring * jsstring) :=
  match s with
  | [] => None
  | c :: r =>
      if c =? 34 then Some ([], r)
      else if c =? 92 then
        match r with
        | [] => None
        | e :: r1 =>
            if e =? 117 then
              match r1 with
              | h1 :: h2 :: h3 :: h4 :: r2 =>
                  match hex4 h1 h2 h3 h4, parse_chars r2 with
                  | Some u, Some (str, rest) => Some (u :: str, rest)
                  | _, _ => None
                  end
              | _ => None
              end
            else
              match simple_escape e, parse_chars r1 with
              | Some u, Some (str, rest) => Some (u :: str, rest)
              | _, _ => None
              end
        end
      else if c <? 32 then None
      else
        match parse_chars r with
        | Some (str, rest) => Some (c :: str, rest)
        | None => None
        end
  end.

(** The longest prefix of decimal digits, as digit values, and the
    rest. *)
Fixpoint span_digits (s : jsstring) : list N * jsstring :=
  match s with
  | c :: r =>
      if is_digit c
      then let '(ds, rest) := span_digits r in ((c - 48) :: ds, rest)
      else ([], s)
  | [] => ([], [])
  end.

Definition digits_value (ds : list N) : N :=
  fold_left (λ acc d, acc * 10 + d) ds 0.

Definition parse_int_part (s : jsstring) : option (list N * jsstring) :=
  match s with
  | c :: r =>
      if c =? 48 then Some ([0], r)
      else if is_digit c then Some (span_digits s)
      else None
  | [] => None
  end.

Definition parse_frac_part (s : jsstring) : option (list N * jsstring) :=
  match s with
  | c :: r =>
      if c =? 46 then
        match span_digits r with
        | ([], _) => None
        | (ds, rest) => Some (ds, rest)
        end
      else Some ([], s)
  | [] => Some ([], s)
  end.

Definition parse_exp_part (s : jsstring) : option (Z * jsstring) :=
  match s with
  | c :: r =>
      if (c =? 101) || (c =? 69) then
        let '(minus, r1) :=
          match r with
          | d :: r' =>
              if d =? 45 then (true, r')
              else if d =? 43 then (false, r')
              else (false, r)
          | [] => (false, r)
          end in
        match span_digits r1 with
        | ([], _) => None
        | (ds, rest) =>
            let e := Z.of_N (digits_value ds) in
            Some (if minus then (- e)%Z else e, rest)
        end
      else Some (0%Z, s)
  | [] => Some (0%Z, s)
  end.

Definition parse_number (s : jsstring) : option (decimal * jsstring) :=
  let '(minus, s1) :=
    match s with
    | c :: r => if c =? 45 then (true, r) else (false, s)
    | [] => (false, s)
    end in
  '(ip, s2) ← parse_int_part s1;
  '(fp, s3) ← parse_frac_part s2;
  '(e, s4) ← parse_exp_part s3;
  Some ({| neg := minus;
           mant := digits_value (ip ++ fp);
           exp10 := (e - Z.of_nat (length fp))%Z |}, s4).

Fixpoint strip_prefix (p s : jsstring) : option jsstring :=
  match p, s with
  | [], _ => Some s
  | a :: p', b :: s' => if a =? b then strip_prefix p' s' else None
  | _ :: _, [] => None
  end.

(** A property key that is an array index: the canonical decimal string
    of an integer below [2^32 - 1]. *)
Definition array_index (k : jsstring) : option N :=
  match k with
  | [] => None
  | c :: r =>
      if forallb is_digit k && (negb (c =? 48) || bool_decide (r = []))
      then
        let n := digits_value ((λ d, d - 48) <$> k) in
        if n <? 4294967295 then Some n else None
      else None
  end.

(** Overwrite the value of an existing own property, in place. *)
Fixpoint obj_set (k : jsstring) (v : JsValue)
    (props : list (jsstring * JsValue)) : list (jsstring * JsValue) :=
  match props with
  | [] => []
  | (k', v') :: rest =>
      if bool_decide (k' = k) then (k, v) :: rest
      else (k', v') :: obj_set k v rest
  end.

(** Add an array-index property: index keys enumerate first, in
    ascending order. *)
Fixpoint insert_index (n : N) (k : jsstring) (v : JsValue)
    (props : list (jsstring * JsValue)) : list (jsstring * JsValue) :=
  match props with
  | [] => [(k, v)]
  | (k', v') :: rest =>
      match array_index k' with
      | Some m =>
          if m <? n then (k', v') :: insert_index n k v rest
          else (k, v) :: props
      | None => (k, v) :: props
      end
  end.

(** [CreateDataProperty] on an ordinary object. *)
Definition define_property (props : list (jsstring * JsValue))
    (kv : jsstring * JsValue) : list (jsstring * JsValue) :=
  let '(k, v) := kv in
  if bool_decide (k ∈ props.*1) then obj_set k v props
  else
    match array_index k with
    | Some n => insert_index n k v props
    | None => props ++ [(k, v)]
    end.

Fixpoint parse_value (fuel : nat) (s : jsstring)
    : option (JsValue * jsstring) :=
  match fuel with
  | O => None
  | S f =>
      match skip_ws s with
      | [] => None
      | c :: r =>
          if c =? 123 then                              (* { *)
            match skip_ws r with
            | [] => None
            | c' :: r' =>
                if c' =? 125 then Some (JObj [], r')    (* } *)
                else
                  '(ms, rest) ← parse_members f r;
                  Some (JObj (fold_left define_property ms []), rest)
            end
          else if c =? 91 then                          (* [ *)
            match skip_ws r with
            | [] => None
            | c' :: r' =>
                if c' =? 93 then Some (JArr [], r')     (* ] *)
                else
                  '(vs, rest) ← parse_elements f r;
                  Some (JArr vs, rest)
            end
          else if c =? 34 then                          (* quote *)
            '(str, rest) ← parse_chars r; Some (JStr str, rest)
          else if c =? 116 then                         (* t *)
            rest ← strip_prefix (js "rue") r; Some (JBool true, rest)
          else if c =? 102 then                         (* f *)
            rest ← strip_prefix (js "alse") r; Some (JBool false, rest)
          else if c =? 110 then                         (* n *)
            rest ← strip_prefix (js "ull") r; Some (JNull, rest)
          else
            '(n, rest) ← parse_number (c :: r); Some (JNum n, rest)
      end
  end
with parse_elements (fuel : nat) (s : jsstring)
    : option (list JsValue * jsstring) :=
  match fuel with
  | O => None
  | S f =>
      '(v, r) ← parse_value f s;
      match skip_ws r with
      | [] => None
      | c :: r' =>
          if c =? 44 then                               (* , *)
            '(vs, rest) ← parse_elements f r'; Some (v :: vs, rest)
          else if c =? 93 then Some ([v], r')
          else None
      end
  end
with parse_members (fuel : nat) (s : jsstring)
    : option (list (jsstring * JsValue) * jsstring) :=
  match fuel with
  | O => None
  | S f =>
      match skip_ws s with
      | [] => None
      | c :: r =>
          if c =? 34 then
            '(k, r1) ← parse_chars r;
            match skip_ws r1 with
            | [] => None
            | c1 :: r2 =>
                if c1 =? 58 then                        (* : *)
                  '(v, r3) ← parse_value f r2;
                  match skip_ws r3 with
                  | [] => None
                  | c3 :: r4 =>
                      if c3 =? 44 then
                        '(ms, rest) ← parse_members f r4;
                        Some ((k, v) :: ms, rest)
                      else if c3 =? 125 then Some ([(k, v)], r4)
                      else None
                  end
                else None
            end
          else None
      end
  end.

(** [JSON.parse(text)] without reviver: one value, then only white
    space; anything else is a [SyntaxError]. Every nested value opens
    with a character of its own, so the length of the text bounds the
    depth of the descent. *)
Definition JSON_parse (text : jsstring) : completion JsValue :=
  match parse_value (S (length text)) text with
  | Some (v, rest) =>
      match skip_ws rest with
      | [] => Normal v
      | _ :: _ => Throw SyntaxError
      end
  | None => Throw SyntaxError
  end.

(** ** [JSON.stringify] (ECMA-262, 25.5.2) *)

Definition hex_char (d : N) : N := if d <? 10 then 48 + d else 87 + d.

(** [UnicodeEscape]: backslash, [u], four lowercase hexadecimal digits. *)
Definition UnicodeEscape (c : N) : jsstring :=
  [92; 117; hex_char (c / 4096 mod 16); hex_char (c / 256 mod 16);
   hex_char (c / 16 mod 16); hex_char (c mod 16)].

Definition is_leading_surrogate (c : N) : bool :=
  (55296 <=? c) && (c <=? 56319).
Definition is_trailing_surrogate (c : N) : bool :=
  (56320 <=? c) && (c <=? 57343).

(** The quoted form of a code point that is one code unit. *)
Definition quote_unit (c : N) : jsstring :=
  if c =? 8 then [92; 98]
  else if c =? 9 then [92; 116]
  else if c =? 10 then [92; 110]
  else if c =? 12 then [92; 102]
  else if c =? 13 then [92; 114]
  else if c =? 34 then [92; 34]
  else if c =? 92 then [92; 92]
  else if (c <? 32) || is_leading_surrogate c || is_trailing_surrogate c
  then UnicodeEscape c
  else [c].

(** The code points of the string in turn: a surrogate pair is copied,
    any other code unit is quoted on its own. *)
Fixpoint quote_units (s : jsstring) : jsstring :=
  match s with
  | [] => []
  | c :: r =>
      match r with
      | d :: r' =>
          if is_leading_surrogate c && is_trailing_surrogate d
          then c :: d :: quote_units r'
          else quote_unit c ++ quote_units r
      | [] => quote_unit c
      end
  end.

Definition QuoteJSONString (s : jsstring) : jsstring :=
  [34] ++ quote_units s ++ [34].

Definition join (sep : jsstring) (parts : list jsstring) : jsstring :=
  match parts with
  | [] => []
  | p :: ps => p ++ concat ((λ q, sep ++ q) <$> ps)
  end.

Section Stringify.
(** [Number::toString] on the double of a decimal, with [null] for a
    value out of range: a parameter of the model. *)
Variable Number_toString : decimal → jsstring.
(** The indentation unit: empty, or up to ten spaces. *)
Variable gap : jsstring.

(** The brackets around the serialized members of an object or the
    elements of an array. *)
Definition wrap (open close : N) (stepback : jsstring)
    (partial : list jsstring) : jsstring :=
  match partial with
  | [] => [open; close]
  | _ :: _ =>
      if truthy_str gap then
        let indent := stepback ++ gap in
        let separator := [44; 10] ++ indent in
        [open; 10] ++ indent ++ join separator partial
        ++ [10] ++ stepback ++ [close]
      else [open] ++ join [44] partial ++ [close]
  end.

Fixpoint SerializeJSONProperty (indent : jsstring) (v : JsValue)
    : jsstring :=
  match v with
  | JNull => js "null"
  | JBool true => js "true"
  | JBool false => js "false"
  | JNum n => Number_toString n
  | JStr s => QuoteJSONString s
  | JArr elems =>
      wrap 91 93 indent
        (SerializeJSONProperty (indent ++ gap) <$> elems)
  | JObj props =>
      wrap 123 125 indent
        ((λ kv, QuoteJSONString kv.1 ++ [58]
                ++ (if truthy_str gap then [32] else [])
                ++ SerializeJSONProperty (indent ++ gap) kv.2)
         <$> props)
  end.

Definition JSON_stringify (v : JsValue) : jsstring :=
  SerializeJSONProperty [] v.

End Stringify.

(** ** Run-time representation of the typed values *)

Definition js_of_Hearing (h : Hearing.t) : JsValue :=
  JObj [ (js "id", JStr (Hearing.id h));
         (js "date", JStr (Hearing.date h));
         (js "note", JStr (Hearing.note h)) ].

Definition js_of_LegalCase (c : LegalCase.t) : JsValue :=
  JObj [ (js "id", JStr (LegalCase.id c));
         (js "title", JStr (LegalCase.title c));
         (js "referenceNumber", JStr (LegalCase.referenceNumber c));
         (js "courtName", JStr (LegalCase.courtName c));
         (js "description", JStr (LegalCase.description c));
         (js "status", JStr (CaseStatus_value (LegalCase.status c)));
         (js "nextHearingDate", JStr (LegalCase.nextHearingDate c));
         (js "history", JArr (js_of_Hearing <$> LegalCase.history c));
         (js "createdAt", JStr (LegalCase.createdAt c)) ].

Definition js_of_DiaryData (d : DiaryData.t) : JsValue :=
  JObj [ (js "cases", JArr (js_of_LegalCase <$> DiaryData.cases d));
         (js "lastBackupDate",
          match DiaryData.lastBackupDate d with
          | Some s => JStr s
          | None => JNull
          end);
         (js "advocateName", JStr (DiaryData.advocateName d)) ].

(** ** [utils/storage.ts] *)

Definition two_spaces : jsstring := [32; 32].

(** Conversion to a [USVString], as [new Blob([text])] applies to its
    parts before encoding them: a surrogate pair is kept, a surrogate on
    its own becomes U+FFFD. *)
Fixpoint to_USVString (s : jsstring) : jsstring :=
  match s with
  | [] => []
  | c :: r =>
      let scalar :=
        if is_leading_surrogate c || is_trailing_surrogate c
        then 65533 else c in
      match r with
      | d :: r' =>
          if is_leading_surrogate c && is_trailing_surrogate d
          then c :: d :: to_USVString r'
          else scalar :: to_USVString r
      | [] => [scalar]
      end
  end.

(** [FileReader.readAsText]: the text of the file, without a leading
    byte order mark. The file is given by the scalar values of its
    content; the UTF-8 bytes that stand for them are not modelled. *)
Definition readAsText (file : jsstring) : jsstring :=
  match file with
  | c :: r => if c =? 65279 then r else file
  | [] => []
  end.

Section Storage.
Variable Number_toString : decimal → jsstring.

Definition saveDiaryData (data : DiaryData.t) (store : localStorage)
    : localStorage :=
  <[STORAGE_KEY := JSON_stringify Number_toString [] (js_of_DiaryData data)]>
    store.

(** The file handed to the browser for download: the text held by the
    [Blob], and its name. *)
Record download := { content : jsstring; filename : jsstring }.

(** [iso.split('T')[0]]. *)
Fixpoint before_T (iso : jsstring) : jsstring :=
  match iso with
  | [] => []
  | c :: r => if c =? 84 then [] else c :: before_T r
  end.

(** [exportToJson]; [iso_name] and [iso_stamp] are the two readings of
    [new Date().toISOString()]. *)
Definition exportToJson (iso_name iso_stamp : jsstring)
    (data : DiaryData.t) (store : localStorage)
    : download * DiaryData.t * localStorage :=
  let blob :=
    to_USVString
      (JSON_stringify Number_toString two_spaces (js_of_DiaryData data)) in
  let a :=
    {| content := blob;
       filename := js "diary_backup_" ++ before_T iso_name ++ js ".json" |} in
  let newData :=
    DiaryData.mk (DiaryData.cases data) (Some iso_stamp)
                 (DiaryData.advocateName data) in
  (a, newData, saveDiaryData newData store).

End Storage.

(** The object literal [{cases: [], lastBackupDate: null, advocateName:
    'Counsel'}]. *)
Definition default_value : JsValue :=
  JObj [ (js "cases", JArr []);
         (js "lastBackupDate", JNull);
         (js "advocateName", JStr (js "Counsel")) ].

(** [loadDiaryData]: the value returned as a [DiaryData]. *)
Definition loadDiaryData (store : localStorage) : completion JsValue :=
  match store !! STORAGE_KEY with
  | None => Normal default_value
  | Some stored =>
      if negb (truthy_str stored) then Normal default_value
      else try_catch (JSON_parse stored) (λ e, Normal default_value)
  end.

(** [importFromJson]: [None] is the [null] result. *)
Definition importFromJson (jsonStr : jsstring)
    : completion (option JsValue) :=
  try_catch
    (data ← JSON_parse jsonStr;
     test ← (if truthy data
             then cases ← get_cases data; mret (isArray cases)
             else mret false);
     if (test : bool) then mret (Some data) else mret None)
    (λ e, Normal None).

(** [StrWhiteSpaceChar]: white space and line terminators. *)
Definition is_StrWhiteSpaceChar (c : N) : bool :=
  ((9 <=? c) && (c <=? 13)) || (c =? 32) || (c =? 160) || (c =? 5760)
  || ((8192 <=? c) && (c <=? 8202)) || (c =? 8232) || (c =? 8233)
  || (c =? 8239) || (c =? 8287) || (c =? 12288) || (c =? 65279).

Fixpoint trim_start (s : jsstring) : jsstring :=
  match s with
  | c :: r => if is_StrWhiteSpaceChar c then trim_start r else s
  | [] => []
  end.

(** [parseInt(s, 10)]; [None] is [NaN]. The integer is not rounded to
    a double. *)
Definition parseInt (s : jsstring) : option Z :=
  let s1 := trim_start s in
  let '(sign, s2) :=
    match s1 with
    | c :: r =>
        if c =? 45 then ((-1)%Z, r)
        else if c =? 43 then (1%Z, r)
        else (1%Z, s1)
    | [] => (1%Z, s1)
    end in
  match span_digits s2 with
  | ([], _) => None
  | (ds, _) => Some (sign * Z.of_N (digits_value ds))%Z
  end.

(** Decimal digits of a natural number, most significant first. *)
Fixpoint N_digits (fuel : nat) (n : N) (acc : jsstring) : jsstring :=
  match fuel with
  | O => acc
  | S f =>
      let acc' := (48 + n mod 10) :: acc in
      if n / 10 =? 0 then acc' else N_digits f (n / 10) acc'
  end.

(** [n.toString()] for an integer time value. *)
Definition int_toString (z : Z) : jsstring :=
  let digits n := N_digits (S (N.to_nat (N.size n))) n [] in
  if (z <? 0)%Z then 45 :: digits (Z.abs_N z) else digits (Z.to_N z).

(** [shouldShowBackupReminder]; [now] is [Date.now()]. *)
Definition shouldShowBackupReminder (store : localStorage) (now : Z)
    : bool :=
  match store !! BACKUP_REMINDER_KEY with
  | None => true
  | Some lastPrompt =>
      if negb (truthy_str lastPrompt) then true
      else
        let twentyFourHours := (24 * 60 * 60 * 1000)%Z in
        match parseInt lastPrompt with
        | Some lastPromptTs => (twentyFourHours <? now - lastPromptTs)%Z
        | None => false
        end
  end.

(** [markBackupReminderAsShown]; [now] is [Date.now()]. *)
Definition markBackupReminderAsShown (store : localStorage) (now : Z)
    : localStorage :=
  <[BACKUP_REMINDER_KEY := int_toString now]> store.

(** ** Definitions used to state the properties *)

(** The merge policy in the words of the specification: start from the
    current cases; for each incoming case in order, append it if no case
    of the result has its id, skip it otherwise. *)
Fixpoint merge_policy (result incoming : list LegalCase.t)
    : list LegalCase.t :=
  match incoming with
  | [] => result
  | c :: rest =>
      if bool_decide (Exists (λ c', LegalCase.id c' = LegalCase.id c) result)
      then merge_policy result rest
      else merge_policy (result ++ [c]) rest
  end.

(** How many times a case occurs in a list. *)
Definition occurrences (c : LegalCase.t) (l : list LegalCase.t) : nat :=
  length (filter (λ x, x = c) l).

(** A case with given [id] and [title], the other fields taken from
    [c]. *)
Definition with_id_title (id title : jsstring) (c : LegalCase.t)
    : LegalCase.t :=
  LegalCase.mk id title
    (LegalCase.referenceNumber c) (LegalCase.courtName c)
    (LegalCase.description c) (LegalCase.status c)
    (LegalCase.nextHearingDate c) (LegalCase.history c)
    (LegalCase.createdAt c).

Definition with_id (id : jsstring) (c : LegalCase.t) : LegalCase.t :=
  with_id_title id (LegalCase.title c) c.

(** A sample case for the concrete scenarios. *)
Definition sample_case (id title : jsstring) : LegalCase.t :=
  LegalCase.mk id title (js "CRL-101/2024") (js "High Court") []
               ONGOING [] [] (js "2024-01-01T00:00:00.000Z").

(** A sample platform: identifiers and clock readings as the browser
    could supply them, and the date rendered as it is stored. *)
Definition sample_platform : Platform :=
  {| uuid_hearing := js "7d3c2f0e-1b5a-4c8d-9e6f-0a1b2c3d4e5f";
     uuid_case := js "0f9e8d7c-6b5a-4f3e-8d2c-1b0a9f8e7d6c";
     now_iso := js "2024-02-01T09:30:00.000Z";
     toLocaleDateString := λ s, s |}.

(** The values that [JSON.stringify] writes in a form from which
    [JSON.parse] rebuilds them: no number (its text depends on the
    rounding to a double), and objects whose keys are pairwise distinct
    and are not array indices (so that they enumerate in the order of
    the text). *)
Fixpoint roundtrips (v : JsValue) : bool :=
  match v with
  | JNull | JBool _ | JStr _ => true
  | JNum _ => false
  | JArr elems => forallb roundtrips elems
  | JObj props =>
      bool_decide (NoDup props.*1)
      && forallb (λ kv, bool_decide (array_index kv.1 = None)
                        && roundtrips kv.2) props
  end.

(** The number of nodes of a value, counting each element and member
    once more: a bound on the descent of the parser. *)
Fixpoint size (v : JsValue) : nat :=
  match v with
  | JNull | JBool _ | JNum _ | JStr _ => 1
  | JArr elems => S (sum_list ((λ e, S (size e)) <$> elems))
  | JObj props => S (sum_list ((λ kv, S (size kv.2)) <$> props))
  end.

(** A string of JSON white space. *)
Definition ws_only (s : jsstring) : Prop :=
  Forall (λ c, is_json_ws c = true) s.

(** The shape that [importFromJson] accepts: an object whose [cases]
    property is an array. *)
Definition has_cases_array (v : JsValue) : Prop :=
  ∃ props elems,
    v = JObj props ∧ obj_lookup (js "cases") props = Some (JArr elems).

(** A string without a surrogate on its own: one that the conversion to
    a [USVString] leaves as it is. *)
Definition well_formed (s : jsstring) : Prop := to_USVString s = s.

(** ** Further handlers and derived views of [App.tsx] *)

(** The display-name field of the settings view:
    [setData({ ...data, advocateName: e.target.value })]. *)
Definition setAdvocateName (value : jsstring) (data : DiaryData.t)
    : DiaryData.t :=
  DiaryData.mk (DiaryData.cases data) (DiaryData.lastBackupDate data) value.


(** [dismissBackup]: the new [showBackupAlert] and the store. *)
Definition dismissBackup (store : localStorage) (now : Z)
    : bool * localStorage :=
  (false, markBackupReminderAsShown store now).

Section Handlers.
Variable Number_toString : decimal → jsstring.

(** [handleBackupNow]: the file, the new [data], the new
    [showBackupAlert] and the store. *)
Definition handleBackupNow (iso_name iso_stamp : jsstring) (now : Z)
    (data : DiaryData.t) (store : localStorage)
    : download * DiaryData.t * bool * localStorage :=
  let '(a, newData, store1) :=
    exportToJson Number_toString iso_name iso_stamp data store in
  (a, newData, false, markBackupReminderAsShown store1 now).

(** The transitions of [data]: one constructor for each [setData] of
    [App]. *)
Inductive data_step : DiaryData.t → DiaryData.t → Prop :=
| step_backup iso_name iso_stamp now store d :
    data_step d (handleBackupNow iso_name iso_stamp now d store).1.1.2
| step_import pendingImportData d :
    data_step d (executeImport pendingImportData d)
| step_purge store d :
    data_step d (executePurge store).1
| step_save c d :
    data_step d (addOrUpdateCase c d)
| step_delete caseToDelete d :
    data_step d (confirmDelete caseToDelete d)
| step_rename value d :
    data_step d (setAdvocateName value d).

End Handlers.

(** [handleFileSelection]: the new [pendingImportData] and the alert
    shown, if any. [file] is [None] when no file was chosen, [Some None]
    when reading it failed, and the content of the file otherwise. *)
Definition handleFileSelection (file : option (option jsstring))
    (pendingImportData : option JsValue)
    : completion (option JsValue * option jsstring) :=
  match file with
  | None => mret (pendingImportData, None)
  | Some None => mret (pendingImportData, Some (js "Failed to read file."))
  | Some (Some bytes) =>
      let result := readAsText bytes in
      imported ← importFromJson result;
      match imported with
      | Some v =>
          if truthy v then mret (Some v, None)
          else mret (pendingImportData,
                     Some (js "Invalid diary file. Please ensure it is a valid JSON backup."))
      | None =>
          mret (pendingImportData,
                Some (js "Invalid diary file. Please ensure it is a valid JSON backup."))
      end
  end.

Module CaseFilter.
Inductive t := all | ongoing | week.
End CaseFilter.



Section Dashboard.
(** [new Date(s).getTime()], with [None] for [NaN], and
    [String.prototype.toLowerCase]: parameters of the model. *)
Variable Date_getTime : jsstring → option Z.
Variable toLowerCase : jsstring → jsstring.

(** [new Date(s) >= t], [new Date(s) <= t] and [new Date(s) < t]; a
    comparison with [NaN] is false. *)
Definition date_ge (s : jsstring) (t : Z) : bool :=
  match Date_getTime s with Some x => (t <=? x)%Z | None => false end.
Definition date_lt (s : jsstring) (t : Z) : bool :=
  match Date_getTime s with Some x => (x <? t)%Z | None => false end.

(** [upcomingHearings] and [overdueHearings]; [today] is the start of
    the current day. *)
Definition upcomingHearings (today : Z) (sortedCases : list LegalCase.t)
    : list LegalCase.t :=
  filter (λ c, truthy_str (LegalCase.nextHearingDate c)
               && date_ge (LegalCase.nextHearingDate c) today
               && bool_decide (LegalCase.status c = ONGOING) = true)
         sortedCases.

Definition overdueHearings (today : Z) (sortedCases : list LegalCase.t)
    : list LegalCase.t :=
  filter (λ c, truthy_str (LegalCase.nextHearingDate c)
               && date_lt (LegalCase.nextHearingDate c) today
               && bool_decide (LegalCase.status c = ONGOING) = true)
         sortedCases.



End Dashboard.

(** [selectedCase]: the case shown in the detail pane. *)
Definition selectedCase (data : DiaryData.t)
    (selectedCaseId : option jsstring) : option LegalCase.t :=
  array_find (λ c, Some (LegalCase.id c) = selectedCaseId)
             (DiaryData.cases data).

(** * Properties *)

(** ** The merge engine *)

Section Merge.
Implicit Types (c : LegalCase.t) (l cur inc : list LegalCase.t).

Lemma array_find_id_None l (k : jsstring) :
  array_find (λ c, LegalCase.id c = k) l = None ↔ k ∉ case_ids l.
Proof.
  unfold array_find, case_ids.
  rewrite fmap_None, list_find_None, Forall_forall, list_elem_of_fmap.
  split.
  - intros H [c [-> Hc]]. by apply (H c).
  - intros H c Hc Heq. apply H. by exists c.
Qed.

Lemma import_step_absent l c :
  LegalCase.id c ∉ case_ids l → import_step l c = l ++ [c].
Proof.
  intros H. unfold import_step.
  apply array_find_id_None in H. by rewrite H.
Qed.

Lemma import_step_present l c :
  LegalCase.id c ∈ case_ids l → import_step l c = l.
Proof.
  intros H. unfold import_step.
  destruct (array_find _ l) eqn:E; [done|].
  by apply array_find_id_None in E.
Qed.

Lemma import_step_cases l c :
  (LegalCase.id c ∈ case_ids l ∧ import_step l c = l)
  ∨ ((LegalCase.id c ∉ case_ids l) ∧ import_step l c = l ++ [c]).
Proof.
  destruct (decide (LegalCase.id c ∈ case_ids l)) as [H|H].
  - left. split; [done|]. by apply import_step_present.
  - right. split; [done|]. by apply import_step_absent.
Qed.

Lemma case_ids_app l1 l2 : case_ids (l1 ++ l2) = case_ids l1 ++ case_ids l2.
Proof. apply fmap_app. Qed.

Lemma Exists_same_id l c :
  Exists (λ c', LegalCase.id c' = LegalCase.id c) l
  ↔ LegalCase.id c ∈ case_ids l.
Proof.
  unfold case_ids. rewrite Exists_exists, list_elem_of_fmap.
  split; intros [x [H1 H2]]; exists x; split; auto.
Qed.

(** The loop of [executeImport] follows the policy of the
    specification. *)
Lemma fold_import_policy inc cur :
  fold_left import_step inc cur = merge_policy cur inc.
Proof.
  revert cur. induction inc as [|c inc IH]; intros cur; simpl; [done|].
  rewrite IH. case_bool_decide as Hd.
  - apply Exists_same_id in Hd. by rewrite import_step_present.
  - rewrite Exists_same_id in Hd. by rewrite import_step_absent.
Qed.

(** The current cases stay in front, in place. *)
Lemma fold_import_prefix inc cur :
  cur `prefix_of` fold_left import_step inc cur.
Proof.
  revert cur. induction inc as [|c inc IH]; intros cur; simpl; [done|].
  etrans; [|apply IH].
  destruct (import_step_cases cur c) as [[_ ->]|[_ ->]];
    [done|by apply prefix_app_r].
Qed.

(** Every incoming id is an id of the result. *)
Lemma fold_import_ids inc cur c :
  c ∈ inc → LegalCase.id c ∈ case_ids (fold_left import_step inc cur).
Proof.
  revert cur. induction inc as [|c0 inc IH]; intros cur Hin; simpl.
  - by apply elem_of_nil in Hin.
  - apply elem_of_cons in Hin as [->|Hin]; [|by apply IH].
    assert (LegalCase.id c0 ∈ case_ids (import_step cur c0)) as Hid.
    { destruct (import_step_cases cur c0) as [[H ->]|[_ ->]]; [done|].
      rewrite case_ids_app. set_solver. }
    destruct (fold_import_prefix inc (import_step cur c0)) as [k ->].
    rewrite case_ids_app. set_solver.
  Qed.

(** Once all incoming ids are present, the loop changes nothing. *)
Lemma fold_import_noop inc cur :
  (∀ c, c ∈ inc → LegalCase.id c ∈ case_ids cur) →
  fold_left import_step inc cur = cur.
Proof.
  induction inc as [|c inc IH]; intros H; simpl; [done|].
  rewrite import_step_present by (apply H; set_solver).
  apply IH. intros c' Hc'. apply H. set_solver.
Qed.

Lemma occurrences_app c l1 l2 :
  occurrences c (l1 ++ l2) = (occurrences c l1 + occurrences c l2)%nat.
Proof. unfold occurrences. by rewrite filter_app, length_app. Qed.

Lemma occurrences_absent c l : c ∉ l → occurrences c l = 0%nat.
Proof.
  intros H. unfold occurrences.
  induction l as [|x l IH]; [done|].
  rewrite filter_cons. case_decide as Hx.
  - subst. set_solver.
  - apply IH. set_solver.
Qed.

Lemma occurrences_singleton c c' :
  occurrences c [c'] = if decide (c' = c) then 1%nat else 0%nat.
Proof.
  unfold occurrences. rewrite filter_cons, filter_nil.
  by case_decide.
Qed.

Lemma id_absent_not_elem c l : LegalCase.id c ∉ case_ids l → c ∉ l.
Proof.
  intros H Hin. apply H. unfold case_ids. apply list_elem_of_fmap. eauto.
Qed.

(** A case whose id is already present is never added again. *)
Lemma fold_import_occurrences_stable inc cur c :
  LegalCase.id c ∈ case_ids cur →
  occurrences c (fold_left import_step inc cur) = occurrences c cur.
Proof.
  revert cur. induction inc as [|c0 inc IH]; intros cur Hid; simpl; [done|].
  destruct (import_step_cases cur c0) as [[_ ->]|[Habs ->]]; [by apply IH|].
  rewrite IH by (rewrite case_ids_app; set_solver).
  rewrite occurrences_app, occurrences_singleton.
  case_decide as Heq; [|lia]. subst. done.
Qed.

(** The first incoming case with a new id is added exactly once. *)
Lemma fold_import_first_once inc cur i c :
  inc !! i = Some c →
  LegalCase.id c ∉ case_ids cur →
  (∀ j c', (j < i)%nat → inc !! j = Some c' →
           LegalCase.id c' ≠ LegalCase.id c) →
  occurrences c (fold_left import_step inc cur) = 1%nat.
Proof.
  revert cur i. induction inc as [|c0 inc IH]; intros cur i Hi Hid Hfirst.
  - done.
  - destruct i as [|i]; simpl in *.
    + injection Hi as ->.
      rewrite import_step_absent by done.
      rewrite fold_import_occurrences_stable
        by (rewrite case_ids_app; set_solver).
      rewrite occurrences_app, occurrences_singleton.
      rewrite occurrences_absent by by apply id_absent_not_elem.
      by rewrite decide_True.
    + apply (IH _ i); [done| |].
      * assert (LegalCase.id c0 ≠ LegalCase.id c) as Hne
          by (apply (Hfirst 0%nat); [lia|done]).
        destruct (import_step_cases cur c0) as [[_ ->]|[_ ->]]; [done|].
        rewrite case_ids_app. set_solver.
      * intros j c' Hj Hc'. apply (Hfirst (S j)); [lia|done].
Qed.

(** The loop keeps the ids pairwise distinct. *)
Lemma fold_import_NoDup inc cur :
  NoDup (case_ids cur) → NoDup (case_ids (fold_left import_step inc cur)).
Proof.
  revert cur. induction inc as [|c inc IH]; intros cur H; simpl; [done|].
  apply IH.
  destruct (import_step_cases cur c) as [[_ ->]|[Habs ->]]; [done|].
  rewrite case_ids_app. apply NoDup_app. split; [done|]. split.
  - intros x Hx Hx'. simpl in Hx'. apply list_elem_of_singleton in Hx'.
    by subst.
  - apply NoDup_singleton.
Qed.

Lemma str_or_idem (a b : jsstring) : str_or a (str_or a b) = str_or a b.
Proof. unfold str_or. by destruct a. Qed.

End Merge.

(** C1. For every current and imported dataset, [executeImport] produces
    the case list of the merge policy: a copy of the current cases to
    which each incoming case, in its given order, is appended if no case
    with its id is present yet and skipped otherwise. With case A titled
    Old in the current dataset and cases A titled New and B in the
    import, the result is exactly the old A followed by B. *)
Theorem C1_merge_follows_policy :
  (∀ current incoming : DiaryData.t,
     DiaryData.cases (executeImport (Some incoming) current)
     = merge_policy (DiaryData.cases current) (DiaryData.cases incoming))
  ∧ (∀ (a a' b : LegalCase.t) lb name lb' name',
       let A_old := with_id_title (js "A") (js "Old") a in
       let A_new := with_id_title (js "A") (js "New") a' in
       let B := with_id (js "B") b in
       DiaryData.cases
         (executeImport (Some (DiaryData.mk [A_new; B] lb' name'))
                        (DiaryData.mk [A_old] lb name))
       = [A_old; B]).
Proof.
  split.
  - intros current incoming. simpl. apply fold_import_policy.
  - intros. simpl. subst A_old A_new B.
    rewrite (import_step_present [_] (with_id_title _ (js "New") a'))
      by (simpl; left).
    rewrite import_step_absent; [done|].
    simpl. rewrite list_elem_of_singleton. by vm_compute.
Qed.

(** C2, as stated, fails: of two incoming cases that share an id absent
    from the current dataset, only the first is added; the second has an
    id that is not in current and yet does not occur in the result. *)
Lemma C2_counterexample_shared_incoming_id :
  let current := DiaryData.mk [] None (js "Counsel") in
  let B1 := sample_case (js "B") (js "first") in
  let B2 := sample_case (js "B") (js "second") in
  let incoming := DiaryData.mk [B1; B2] None (js "Counsel") in
  B2 ∈ DiaryData.cases incoming
  ∧ (LegalCase.id B2 ∉ case_ids (DiaryData.cases current))
  ∧ DiaryData.cases (executeImport (Some incoming) current) = [B1]
  ∧ occurrences B2 (DiaryData.cases (executeImport (Some incoming) current))
    = 0%nat.
Proof.
  simpl. split; [|split; [|split]].
  - right. left.
  - apply not_elem_of_nil.
  - by vm_compute.
  - by vm_compute.
Qed.

(** C2, amended. For every current and incoming dataset, the current
    cases are the front part of the merged case list, unchanged and in
    place; the merged list is at least as long as the current one; and
    every incoming case whose id is not in current and which no earlier
    incoming case shares its id with occurs in the result exactly once.
    When the incoming ids are pairwise distinct this is every incoming
    case whose id is not in current. *)
Theorem C2_merge_keeps_current_adds_new :
  ∀ current incoming : DiaryData.t,
    let result := DiaryData.cases (executeImport (Some incoming) current) in
    DiaryData.cases current `prefix_of` result
    ∧ (∀ c, c ∈ DiaryData.cases current → c ∈ result)
    ∧ (length (DiaryData.cases current) ≤ length result)%nat
    ∧ (∀ i c,
         DiaryData.cases incoming !! i = Some c →
         LegalCase.id c ∉ case_ids (DiaryData.cases current) →
         (∀ j c', (j < i)%nat → DiaryData.cases incoming !! j = Some c' →
                  LegalCase.id c' ≠ LegalCase.id c) →
         occurrences c result = 1%nat)
    ∧ (NoDup (case_ids (DiaryData.cases incoming)) →
       ∀ c, c ∈ DiaryData.cases incoming →
            LegalCase.id c ∉ case_ids (DiaryData.cases current) →
            occurrences c result = 1%nat).
Proof.
  intros current incoming result. subst result. simpl.
  pose proof (fold_import_prefix (DiaryData.cases incoming)
                (DiaryData.cases current)) as Hpre.
  split; [done|]. split; [|split; [|split]].
  - intros c Hc. destruct Hpre as [k ->]. set_solver.
  - by apply prefix_length.
  - intros i c Hi Hid Hfirst. by apply (fold_import_first_once _ _ i).
  - intros Hnd c Hc Hid.
    apply list_elem_of_lookup in Hc as [i Hi].
    apply (fold_import_first_once _ _ i); [done..|].
    intros j c' Hj Hc' Heq.
    assert (i = j); [|lia].
    apply (NoDup_lookup _ _ _ (LegalCase.id c) Hnd);
      unfold case_ids; rewrite list_lookup_fmap.
    + by rewrite Hi.
    + rewrite Hc'. simpl. by rewrite Heq.
Qed.

Lemma C2_witness :
  occurrences
    (sample_case (js "B") (js "second"))
    (DiaryData.cases
       (executeImport
          (Some (DiaryData.mk [sample_case (js "A") (js "New");
                               sample_case (js "B") (js "second")]
                              None (js "Counsel")))
          (DiaryData.mk [sample_case (js "A") (js "Old")] None
                        (js "Counsel"))))
  = 1%nat.
Proof.
  apply (proj1 (proj2 (proj2 (proj2
           (C2_merge_keeps_current_adds_new
              (DiaryData.mk [sample_case (js "A") (js "Old")] None
                            (js "Counsel"))
              (DiaryData.mk [sample_case (js "A") (js "New");
                             sample_case (js "B") (js "second")]
                            None (js "Counsel")))))) 1%nat).
  - reflexivity.
  - simpl. rewrite list_elem_of_singleton. by vm_compute.
  - intros j c' Hj. destruct j as [|j]; [|lia].
    simpl. intros [= <-]. by vm_compute.
Defined.

(** C3. Merge is idempotent: merging the same import into the result of
    a merge changes nothing. *)
Theorem C3_merge_idempotent :
  ∀ A B : DiaryData.t, merge (merge A B) B = merge A B.
Proof.
  intros A B. unfold merge, executeImport. simpl.
  rewrite str_or_idem. f_equal.
  apply fold_import_noop. intros c Hc. by apply fold_import_ids.
Qed.

(** C7. For every current and incoming dataset, the merged
    [advocateName] is the incoming one when that is non-empty and the
    current one otherwise, and [lastBackupDate] is the current one. The
    typed dataset has no further field. Confirming with nothing staged
    leaves the dataset as it is. *)
Theorem C7_merge_frame :
  ∀ current incoming : DiaryData.t,
    let result := executeImport (Some incoming) current in
    (DiaryData.advocateName incoming ≠ [] →
     DiaryData.advocateName result = DiaryData.advocateName incoming)
    ∧ (DiaryData.advocateName incoming = [] →
       DiaryData.advocateName result = DiaryData.advocateName current)
    ∧ DiaryData.lastBackupDate result = DiaryData.lastBackupDate current
    ∧ executeImport None current = current.
Proof.
  intros current incoming. simpl. unfold str_or.
  destruct (DiaryData.advocateName incoming); simpl; naive_solver.
Qed.

Lemma C7_witness :
  DiaryData.advocateName
    (executeImport (Some (DiaryData.mk [] None (js "Adv. Rao")))
                   (DiaryData.mk [] (Some (js "2024-03-01")) (js "Counsel")))
  = js "Adv. Rao"
  ∧ DiaryData.advocateName
      (executeImport (Some (DiaryData.mk [] None []))
                     (DiaryData.mk [] (Some (js "2024-03-01")) (js "Counsel")))
    = js "Counsel".
Proof.
  split.
  - apply (proj1 (C7_merge_frame
                    (DiaryData.mk [] (Some (js "2024-03-01")) (js "Counsel"))
                    (DiaryData.mk [] None (js "Adv. Rao")))).
    by vm_compute.
  - apply (proj1 (proj2 (C7_merge_frame
                    (DiaryData.mk [] (Some (js "2024-03-01")) (js "Counsel"))
                    (DiaryData.mk [] None [])))).
    reflexivity.
Defined.

(** ** The other updaters of the dataset *)

Section Updaters.
Implicit Types (c : LegalCase.t) (l : list LegalCase.t) (d : DiaryData.t).

(** [addOrUpdateCase] replaces in place at the first case with the id of
    [c]. *)
Lemma addOrUpdateCase_found c d i x :
  list_find (λ item, LegalCase.id item = LegalCase.id c) (DiaryData.cases d)
  = Some (i, x) →
  DiaryData.cases (addOrUpdateCase c d) = <[i := c]> (DiaryData.cases d).
Proof.
  intros H. unfold addOrUpdateCase, findIndex. rewrite H. simpl.
  destruct (Z.leb_spec 0 (Z.of_nat i)); [|lia].
  by rewrite Nat2Z.id.
Qed.

(** [addOrUpdateCase] puts [c] in front when no case has its id. *)
Lemma addOrUpdateCase_fresh c d :
  LegalCase.id c ∉ case_ids (DiaryData.cases d) →
  DiaryData.cases (addOrUpdateCase c d) = c :: DiaryData.cases d.
Proof.
  intros H. unfold addOrUpdateCase, findIndex.
  destruct (list_find _ _) as [[i x]|] eqn:E; [|done].
  apply list_find_Some in E as (Hi & Hx & _).
  exfalso. apply H. unfold case_ids. apply list_elem_of_fmap.
  exists x. split; [done|]. by eapply list_elem_of_lookup_2.
Qed.

Lemma addOrUpdateCase_cases c d :
  (∃ i x, DiaryData.cases d !! i = Some x
          ∧ LegalCase.id x = LegalCase.id c
          ∧ (∀ j y, DiaryData.cases d !! j = Some y → (j < i)%nat →
                    LegalCase.id y ≠ LegalCase.id c)
          ∧ DiaryData.cases (addOrUpdateCase c d)
            = <[i := c]> (DiaryData.cases d))
  ∨ ((LegalCase.id c ∉ case_ids (DiaryData.cases d))
     ∧ DiaryData.cases (addOrUpdateCase c d) = c :: DiaryData.cases d).
Proof.
  destruct (list_find (λ item, LegalCase.id item = LegalCase.id c)
              (DiaryData.cases d)) as [[i x]|] eqn:E.
  - left. exists i, x. pose proof E as E'.
    apply list_find_Some in E' as (Hi & Hx & Hlt).
    repeat split; try done. by apply (addOrUpdateCase_found c d i x).
  - right. apply list_find_None in E.
    assert (LegalCase.id c ∉ case_ids (DiaryData.cases d)) as Habs.
    { unfold case_ids. rewrite list_elem_of_fmap. intros [y [Hy Hin]].
      rewrite Forall_forall in E. by apply (E y). }
    split; [done|]. by apply addOrUpdateCase_fresh.
Qed.

Lemma addOrUpdateCase_NoDup c d :
  NoDup (case_ids (DiaryData.cases d)) →
  NoDup (case_ids (DiaryData.cases (addOrUpdateCase c d))).
Proof.
  intros Hnd.
  destruct (addOrUpdateCase_cases c d)
    as [(i & x & Hi & Hx & _ & ->)|[Habs ->]].
  - unfold case_ids in *. rewrite list_fmap_insert.
    rewrite list_insert_id; [done|].
    rewrite list_lookup_fmap, Hi. simpl. by rewrite Hx.
  - simpl. by apply NoDup_cons.
Qed.

(** [confirmDelete] leaves no case with the deleted id, and keeps the
    others in order. *)
Lemma confirmDelete_removes target d :
  LegalCase.id target
  ∉ case_ids (DiaryData.cases (confirmDelete (Some target) d)).
Proof.
  simpl. unfold case_ids. rewrite list_elem_of_fmap.
  intros [y [Hy Hin]]. apply list_elem_of_filter in Hin as [Hne _].
  by apply Hne.
Qed.

Lemma confirmDelete_NoDup t d :
  NoDup (case_ids (DiaryData.cases d)) →
  NoDup (case_ids (DiaryData.cases (confirmDelete t d))).
Proof.
  intros Hnd. destruct t as [target|]; [|done]. simpl.
  eapply sublist_NoDup; [exact Hnd|].
  unfold case_ids. apply fmap_sublist, sublist_filter.
Qed.

End Updaters.

(** C10. Pairwise distinct case ids are an invariant of the dataset:
    [addOrUpdateCase], [confirmDelete], [executeImport] and
    [executePurge] each yield a dataset with pairwise distinct case ids
    from a dataset that has them. *)
Theorem C10_id_uniqueness_invariant :
  ∀ d : DiaryData.t,
    NoDup (case_ids (DiaryData.cases d)) →
    (∀ c, NoDup (case_ids (DiaryData.cases (addOrUpdateCase c d))))
    ∧ (∀ caseToDelete,
         NoDup (case_ids (DiaryData.cases (confirmDelete caseToDelete d))))
    ∧ (∀ pendingImportData,
         NoDup (case_ids
                  (DiaryData.cases (executeImport pendingImportData d))))
    ∧ (∀ store, NoDup (case_ids (DiaryData.cases (executePurge store).1))).
Proof.
  intros d Hnd. split; [|split; [|split]].
  - intros c. by apply addOrUpdateCase_NoDup.
  - intros t. by apply confirmDelete_NoDup.
  - intros [pending|]; [|done]. simpl. by apply fold_import_NoDup.
  - intros store. simpl. apply NoDup_nil_2.
Qed.

Lemma C10_witness :
  NoDup (case_ids
           (DiaryData.cases
              (addOrUpdateCase
                 (sample_case (js "A") (js "New"))
                 (DiaryData.mk [sample_case (js "B") (js "Other");
                                sample_case (js "A") (js "Old")]
                               None (js "Counsel"))))).
Proof.
  apply (C10_id_uniqueness_invariant
           (DiaryData.mk [sample_case (js "B") (js "Other");
                          sample_case (js "A") (js "Old")]
                         None (js "Counsel"))).
  simpl. apply NoDup_cons. split.
  - rewrite list_elem_of_singleton. by vm_compute.
  - apply NoDup_singleton.
Defined.

(** ** Rescheduling a hearing *)



(** Submitting the form as it opens on a complete case saves that very
    case. *)
Lemma handleSubmit_init_unchanged pf c :
  LegalCase.title c ≠ [] → LegalCase.courtName c ≠ [] →
  LegalCase.id c ≠ [] → LegalCase.createdAt c ≠ [] →
  CaseForm.handleSubmit pf (Some c) (CaseForm.init (Some c)) = Some c.
Proof.
  intros Ht Hc Hi Hd. destruct c as [id t r k d s n h ca]. simpl in *.
  unfold CaseForm.handleSubmit. simpl.
  destruct t; [done|]. destruct k; [done|]. simpl.
  rewrite bool_decide_eq_true_2 by done. rewrite andb_false_r.
  destruct id; [done|]. by destruct ca.
Qed.

(** C9. Take a case whose [nextHearingDate] is 2024-01-10 and whose
    history is empty, and submit the form on it with the date changed to
    2024-02-15 (title and court filled in, as the form requires). The
    record that is saved has exactly one hearing in its history, dated
    2024-01-10, and has [nextHearingDate] 2024-02-15; it keeps the id of
    the case when that id is not empty; [addOrUpdateCase] makes it the
    case found under its id, and in a dataset with pairwise distinct ids
    it takes the place of the edited case. *)
Theorem C9_reschedule_creates_history :
  ∀ (pf : Platform) (c : LegalCase.t) (st : CaseForm.state),
    LegalCase.nextHearingDate c = js "2024-01-10" →
    LegalCase.history c = [] →
    CaseForm.nextDate st = js "2024-02-15" →
    CaseForm.title st ≠ [] →
    CaseForm.court st ≠ [] →
    ∃ saved h,
      CaseForm.handleSubmit pf (Some c) st = Some saved
      ∧ LegalCase.history saved = [h]
      ∧ Hearing.date h = js "2024-01-10"
      ∧ LegalCase.nextHearingDate saved = js "2024-02-15"
      ∧ (LegalCase.id c ≠ [] → LegalCase.id saved = LegalCase.id c)
      ∧ (∀ d, array_find (λ x, LegalCase.id x = LegalCase.id saved)
                (DiaryData.cases (addOrUpdateCase saved d)) = Some saved)
      ∧ (∀ d i, NoDup (case_ids (DiaryData.cases d)) →
                DiaryData.cases d !! i = Some c →
                LegalCase.id c ≠ [] →
                DiaryData.cases (addOrUpdateCase saved d)
                = <[i := saved]> (DiaryData.cases d)).
Proof.
  intros pf c st Hdate Hhist Hnext Htitle Hcourt.
  unfold CaseForm.handleSubmit.
  destruct (CaseForm.title st) as [|t0 t] eqn:Et; [done|].
  destruct (CaseForm.court st) as [|k0 k] eqn:Ek; [done|].
  cbn [negb orb truthy_str]. rewrite Hdate, Hnext, Hhist.
  assert (truthy_str (js "2024-01-10")
          && negb (bool_decide (js "2024-02-15" = js "2024-01-10")) = true)
    as Hmoved by (by vm_compute).
  eexists _, _. rewrite Hmoved. split; [reflexivity|].
  split; [reflexivity|]. split; [reflexivity|]. split; [reflexivity|].
  split; [|split].
  - simpl. unfold str_or. by destruct (LegalCase.id c).
  - intros d. set (saved := LegalCase.mk _ _ _ _ _ _ _ _ _).
    unfold array_find.
    destruct (addOrUpdateCase_cases saved d)
      as [(i & x & Hi & Hx & Hlt & ->)|[Habs ->]].
    + assert (list_find (λ x0, LegalCase.id x0 = LegalCase.id saved)
                (<[i:=saved]> (DiaryData.cases d)) = Some (i, saved)) as ->;
        [|done].
      apply list_find_Some. split; [|split; [done|]].
      * apply list_lookup_insert_eq. by eapply lookup_lt_Some.
      * intros j y Hj Hlt'. rewrite list_lookup_insert_ne in Hj by lia.
        by apply (Hlt j).
    + simpl. by rewrite decide_True.
  - intros d i Hnd Hi Hid. set (saved := LegalCase.mk _ _ _ _ _ _ _ _ _).
    assert (LegalCase.id saved = LegalCase.id c) as Hsame.
    { subst saved. simpl. unfold str_or. by destruct (LegalCase.id c). }
    apply (addOrUpdateCase_found saved d i c).
    apply list_find_Some. split; [done|]. split; [done|].
    intros j y Hj Hlt Heq.
    assert (j = i); [|lia].
    apply (NoDup_lookup _ _ _ (LegalCase.id c) Hnd);
      unfold case_ids; rewrite list_lookup_fmap.
    + rewrite Hj. simpl. by rewrite Heq, Hsame.
    + by rewrite Hi.
Qed.

Lemma C9_witness :
  let c :=
    LegalCase.mk (js "A") (js "State vs John Doe") (js "CRL-101/2024")
                 (js "High Court") [] ONGOING (js "2024-01-10") []
                 (js "2024-01-01T00:00:00.000Z") in
  let st :=
    CaseForm.mk (js "State vs John Doe") (js "CRL-101/2024")
                (js "High Court") [] ONGOING (js "2024-02-15") [] in
  ∃ saved h,
    CaseForm.handleSubmit sample_platform (Some c) st = Some saved
    ∧ LegalCase.history saved = [h]
    ∧ Hearing.date h = js "2024-01-10"
    ∧ LegalCase.nextHearingDate saved = js "2024-02-15".
Proof.
  intros c st.
  destruct (C9_reschedule_creates_history sample_platform c st)
    as (saved & h & H1 & H2 & H3 & H4 & _);
    [reflexivity | reflexivity | reflexivity
    | by vm_compute | by vm_compute |].
  exists saved, h. auto.
Defined.

(** ** The reminder gate *)

Section Reminder.

Lemma digits_value_snoc ds d :
  digits_value (ds ++ [d]) = digits_value ds * 10 + d.
Proof. unfold digits_value. by rewrite fold_left_app. Qed.

Lemma is_digit_char d : d < 10 → is_digit (48 + d) = true.
Proof.
  intros H. unfold is_digit.
  apply andb_true_intro. split; apply N.leb_le; lia.
Qed.

(** Reading back a run of digit characters that ends the string. *)
Lemma span_digits_chars ds :
  Forall (λ d, d < 10) ds →
  span_digits ((λ d, 48 + d) <$> ds) = (ds, []).
Proof.
  induction 1 as [|d ds Hd _ IH]; [done|].
  rewrite fmap_cons. cbn [span_digits]. rewrite is_digit_char by done.
  rewrite IH. f_equal. f_equal. lia.
Qed.

Lemma N_digits_step f n acc :
  N_digits (S f) n acc
  = if n / 10 =? 0 then (48 + n mod 10) :: acc
    else N_digits f (n / 10) ((48 + n mod 10) :: acc).
Proof. reflexivity. Qed.

(** [N_digits] writes the decimal digits of [n] in front of [acc]. *)
Lemma N_digits_spec f n acc :
  n < 2 ^ N.of_nat (S f) →
  ∃ ds, N_digits (S f) n acc = ((λ d, 48 + d) <$> ds) ++ acc
        ∧ Forall (λ d, d < 10) ds ∧ ds ≠ [] ∧ digits_value ds = n.
Proof.
  revert n acc. induction f as [|f IH]; intros n acc Hn.
  - assert (n / 10 = 0) as Hq by (apply N.div_small; simpl in Hn; lia).
    rewrite N_digits_step, Hq. simpl.
    exists [n mod 10]. split; [done|]. split; [|split; [done|]].
    + constructor; [|constructor]. apply N.mod_lt. lia.
    + unfold digits_value. simpl. rewrite N.mod_small; [lia|].
      simpl in Hn. lia.
  - rewrite N_digits_step.
    destruct (N.eqb_spec (n / 10) 0) as [Hq|Hq].
    + exists [n mod 10]. split; [done|]. split; [|split; [done|]].
      * constructor; [|constructor]. apply N.mod_lt. lia.
      * unfold digits_value. simpl.
        pose proof (N.div_mod n 10). lia.
    + destruct (IH (n / 10) ((48 + n mod 10) :: acc)) as (ds & -> & Hds & _ & Hv).
      { assert (n / 10 <= n / 2) by (apply N.div_le_compat_l; lia).
        assert (n / 2 < 2 ^ N.of_nat (S f)); [|lia].
        apply N.Div0.div_lt_upper_bound.
        rewrite <- N.pow_succ_r'. by rewrite <- Nat2N.inj_succ. }
      exists (ds ++ [n mod 10]). split; [|split; [|split]].
      * by rewrite fmap_app, <- app_assoc.
      * apply Forall_app. split; [done|].
        constructor; [|constructor]. apply N.mod_lt. lia.
      * by destruct ds.
      * rewrite digits_value_snoc, Hv. pose proof (N.div_mod n 10). lia.
Qed.

Lemma N_digits_size n :
  ∃ ds, N_digits (S (N.to_nat (N.size n))) n [] = (λ d, 48 + d) <$> ds
        ∧ Forall (λ d, d < 10) ds ∧ ds ≠ [] ∧ digits_value ds = n.
Proof.
  destruct (N_digits_spec (N.to_nat (N.size n)) n []) as (ds & H & ?).
  - rewrite Nat2N.inj_succ, N2Nat.id, N.pow_succ_r'.
    pose proof (N.size_gt n). lia.
  - exists ds. by rewrite app_nil_r in H.
Qed.

Lemma trim_start_nonspace c r :
  is_StrWhiteSpaceChar c = false → trim_start (c :: r) = c :: r.
Proof. intros H. simpl. by rewrite H. Qed.

Lemma digit_char_not_space d :
  d < 10 → is_StrWhiteSpaceChar (48 + d) = false.
Proof.
  intros H. unfold is_StrWhiteSpaceChar.
  repeat (apply orb_false_intro);
    try (apply N.eqb_neq; lia);
    apply andb_false_iff; (left; apply N.leb_gt; lia) || (right; apply N.leb_gt; lia).
Qed.

(** [parseInt] reads back what [toString] wrote. *)
Lemma parseInt_int_toString z : parseInt (int_toString z) = Some z.
Proof.
  unfold int_toString.
  destruct (Z.ltb_spec z 0) as [Hneg|Hpos].
  - destruct (N_digits_size (Z.abs_N z)) as (ds & -> & Hds & Hne & Hv).
    unfold parseInt. rewrite trim_start_nonspace by done.
    cbn [N.eqb Pos.eqb]. rewrite span_digits_chars by done.
    destruct ds; [done|]. rewrite Hv. f_equal. lia.
  - destruct (N_digits_size (Z.to_N z)) as (ds & -> & Hds & Hne & Hv).
    destruct ds as [|d ds]; [done|].
    apply Forall_cons in Hds as Hd. destruct Hd as [Hd _].
    unfold parseInt. rewrite fmap_cons.
    rewrite trim_start_nonspace by by apply digit_char_not_space.
    destruct (N.eqb_spec (48 + d) 45); [lia|].
    destruct (N.eqb_spec (48 + d) 43); [lia|].
    rewrite <- fmap_cons. rewrite span_digits_chars by done.
    rewrite Hv. f_equal. lia.
Qed.

Lemma int_toString_nonempty z : int_toString z ≠ [].
Proof.
  unfold int_toString. destruct (z <? 0)%Z; [done|].
  destruct (N_digits_size (Z.to_N z)) as (ds & -> & _ & Hne & _).
  by destruct ds.
Qed.

(** The gate, for a slot that holds the timestamp [T]. *)
Lemma shouldShowBackupReminder_recorded store T now :
  store !! BACKUP_REMINDER_KEY = Some (int_toString T) →
  shouldShowBackupReminder store now = bool_decide (86400000 < now - T)%Z.
Proof.
  intros H. unfold shouldShowBackupReminder. rewrite H.
  pose proof (int_toString_nonempty T).
  destruct (int_toString T) eqn:E; [done|]. cbn [truthy_str negb].
  rewrite <- E, parseInt_int_toString.
  change (24 * 60 * 60 * 1000)%Z with 86400000%Z.
  destruct (Z.ltb_spec 86400000 (now - T));
    [by rewrite bool_decide_eq_true_2|rewrite bool_decide_eq_false_2; [done|lia]].
Qed.

(** After a purge the dataset is the empty one and the gate is open. *)
Lemma executePurge_resets (store : localStorage) (now : Z) :
  (executePurge store).1 = empty_diary
  ∧ shouldShowBackupReminder (executePurge store).2 now = true.
Proof.
  split; [done|]. unfold executePurge, shouldShowBackupReminder. simpl.
  change (js "last_backup_prompt_ts") with BACKUP_REMINDER_KEY.
  by rewrite lookup_delete_eq.
Qed.

End Reminder.

(** C8. [shouldShowBackupReminder] is true when no prompt timestamp is
    recorded, and, when the timestamp [T] is recorded, true exactly when
    more than 86,400,000 ms have passed since [T].
    [markBackupReminderAsShown] at [T] records [T]; after it, the gate
    is false at [T] + 23h59m and true at [T] + 24h0m1s. *)
Theorem C8_reminder_threshold :
  ∀ (store : localStorage) (T now : Z),
    (store !! BACKUP_REMINDER_KEY = None →
     shouldShowBackupReminder store now = true)
    ∧ (store !! BACKUP_REMINDER_KEY = Some (int_toString T) →
       (shouldShowBackupReminder store now = true
        ↔ (now - T > 86400000)%Z))
    ∧ markBackupReminderAsShown store T !! BACKUP_REMINDER_KEY
      = Some (int_toString T)
    ∧ shouldShowBackupReminder ∅ now = true
    ∧ shouldShowBackupReminder (markBackupReminderAsShown store T)
        (T + (23 * 60 + 59) * 60 * 1000)%Z = false
    ∧ shouldShowBackupReminder (markBackupReminderAsShown store T)
        (T + (24 * 60 * 60 + 1) * 1000)%Z = true.
Proof.
  intros store T now.
  assert (markBackupReminderAsShown store T !! BACKUP_REMINDER_KEY
          = Some (int_toString T)) as Hmark
    by apply lookup_insert_eq.
  split; [|split; [|split; [|split; [|split]]]].
  - intros H. unfold shouldShowBackupReminder. by rewrite H.
  - intros H. rewrite (shouldShowBackupReminder_recorded _ T) by done.
    rewrite bool_decide_eq_true. lia.
  - done.
  - unfold shouldShowBackupReminder. by rewrite lookup_empty.
  - rewrite (shouldShowBackupReminder_recorded _ T) by done.
    apply bool_decide_eq_false_2. lia.
  - rewrite (shouldShowBackupReminder_recorded _ T) by done.
    apply bool_decide_eq_true_2. lia.
Qed.

Lemma C8_witness :
  shouldShowBackupReminder ∅ 1700000000000%Z = true
  ∧ (shouldShowBackupReminder
       (markBackupReminderAsShown ∅ 1700000000000%Z) 1700086400001%Z = true
     ↔ (1700086400001 - 1700000000000 > 86400000)%Z).
Proof.
  split.
  - apply (proj1 (C8_reminder_threshold ∅ 0%Z 1700000000000%Z)).
    reflexivity.
  - apply (proj1 (proj2 (C8_reminder_threshold
                           (markBackupReminderAsShown ∅ 1700000000000%Z)
                           1700000000000%Z 1700086400001%Z))).
    reflexivity.
Defined.

(** ** The backup codec: strings *)

Section Strings.

Lemma hex_digit_hex_char d : d < 16 → hex_digit (hex_char d) = Some d.
Proof.
  intros H. unfold hex_char, hex_digit.
  destruct (N.ltb_spec d 10).
  - rewrite (proj2 (N.leb_le 48 (48 + d))) by lia.
    rewrite (proj2 (N.leb_le (48 + d) 57)) by lia.
    simpl. f_equal. lia.
  - rewrite (proj2 (N.leb_gt (87 + d) 57)) by lia.
    rewrite andb_false_r.
    rewrite (proj2 (N.leb_le 97 (87 + d))) by lia.
    rewrite (proj2 (N.leb_le (87 + d) 102)) by lia.
    simpl. f_equal. lia.
Qed.

Lemma hex4_digits c :
  c < 65536 →
  hex4 (hex_char (c / 4096 mod 16)) (hex_char (c / 256 mod 16))
       (hex_char (c / 16 mod 16)) (hex_char (c mod 16)) = Some c.
Proof.
  intros H. unfold hex4.
  rewrite !hex_digit_hex_char by (apply N.mod_lt; lia). simpl. f_equal.
  assert (c / 256 = c / 16 / 16) as E2 by (by rewrite N.Div0.div_div).
  assert (c / 4096 = c / 256 / 16) as E3 by (by rewrite N.Div0.div_div).
  pose proof (N.div_mod c 16 ltac:(lia)) as H0.
  pose proof (N.div_mod (c / 16) 16 ltac:(lia)) as H1.
  pose proof (N.div_mod (c / 256) 16 ltac:(lia)) as H2.
  assert (c / 4096 < 16) as H3 by (apply N.Div0.div_lt_upper_bound; lia).
  rewrite (N.mod_small (c / 4096) 16) by done.
  rewrite <- E2 in H1. rewrite <- E3 in H2.
  lia.
Qed.

Lemma parse_chars_unicode_escape h1 h2 h3 h4 r :
  parse_chars (92 :: 117 :: h1 :: h2 :: h3 :: h4 :: r)
  = match hex4 h1 h2 h3 h4, parse_chars r with
    | Some u, Some (str, rest) => Some (u :: str, rest)
    | _, _ => None
    end.
Proof. reflexivity. Qed.

(** One quoted code unit reads back as that code unit. *)
Lemma parse_chars_quote_unit c tail str rest :
  parse_chars tail = Some (str, rest) →
  parse_chars (quote_unit c ++ tail) = Some (c :: str, rest).
Proof.
  intros Htail. unfold quote_unit.
  repeat match goal with
         | |- context [c =? ?k] =>
             destruct (N.eqb_spec c k) as [->|?]; [simpl; by rewrite Htail|]
         end.
  destruct (_ || _ || _) eqn:E.
  - assert (c < 65536) as Hc.
    { unfold is_leading_surrogate, is_trailing_surrogate in E.
      repeat (apply orb_prop in E as [E|E]).
      - apply N.ltb_lt in E. lia.
      - apply andb_prop in E as [_ E]. apply N.leb_le in E. lia.
      - apply andb_prop in E as [_ E]. apply N.leb_le in E. lia. }
    unfold UnicodeEscape. cbn [app].
    by rewrite parse_chars_unicode_escape, hex4_digits, Htail.
  - apply orb_false_elim in E as [E _]. apply orb_false_elim in E as [E _].
    cbn [app parse_chars].
    destruct (N.eqb_spec c 34); [done|].
    destruct (N.eqb_spec c 92); [done|].
    by rewrite E, Htail.
Qed.

(** A surrogate is read as an ordinary character. *)
Lemma parse_chars_surrogate c tail str rest :
  55296 <= c →
  parse_chars tail = Some (str, rest) →
  parse_chars (c :: tail) = Some (c :: str, rest).
Proof.
  intros Hc Htail. cbn [parse_chars].
  destruct (N.eqb_spec c 34); [lia|].
  destruct (N.eqb_spec c 92); [lia|].
  destruct (N.ltb_spec c 32); [lia|].
  by rewrite Htail.
Qed.

Lemma parse_chars_quote_units s rest :
  parse_chars (quote_units s ++ 34 :: rest) = Some (s, rest).
Proof.
  cut ((parse_chars (quote_units s ++ 34 :: rest) = Some (s, rest))
       ∧ ∀ c, parse_chars (quote_units (c :: s) ++ 34 :: rest)
              = Some (c :: s, rest)); [tauto|].
  induction s as [|d s [IH1 IH2]].
  - split; [done|]. intros c. cbn [quote_units].
    by apply parse_chars_quote_unit.
  - split; [apply IH2|]. intros c. cbn [quote_units].
    fold (quote_units (d :: s)).
    destruct (is_leading_surrogate c && is_trailing_surrogate d) eqn:E.
    + apply andb_prop in E as [Ec Ed].
      unfold is_leading_surrogate in Ec. unfold is_trailing_surrogate in Ed.
      apply andb_prop in Ec as [Ec _]. apply andb_prop in Ed as [Ed _].
      apply N.leb_le in Ec, Ed.
      cbn [app]. apply parse_chars_surrogate; [lia|].
      apply parse_chars_surrogate; [lia|]. exact IH1.
    + rewrite <- app_assoc. apply parse_chars_quote_unit. apply IH2.
Qed.

(** A quoted string reads back as the string. *)
Lemma parse_chars_QuoteJSONString s rest :
  ∃ t, QuoteJSONString s ++ rest = 34 :: t
       ∧ parse_chars t = Some (s, rest).
Proof.
  exists (quote_units s ++ 34 :: rest). split.
  - unfold QuoteJSONString. simpl. by rewrite <- app_assoc.
  - apply parse_chars_quote_units.
Qed.

End Strings.

(** ** The backup codec: the parser, one production at a time *)

Section ParserSteps.

Lemma skip_ws_app w s : ws_only w → skip_ws (w ++ s) = skip_ws s.
Proof. induction 1 as [|c w Hc _ IH]; [done|]. simpl. by rewrite Hc. Qed.

Lemma skip_ws_stop c s : is_json_ws c = false → skip_ws (c :: s) = c :: s.
Proof. intros H. simpl. by rewrite H. Qed.

Lemma ws_only_app w1 w2 : ws_only w1 → ws_only w2 → ws_only (w1 ++ w2).
Proof. intros. by apply Forall_app. Qed.

Lemma ws_only_nil : ws_only [].
Proof. constructor. Qed.

Lemma ws_only_newline w : ws_only w → ws_only (10 :: w).
Proof. intros. by constructor. Qed.

Lemma ws_only_space : ws_only [32].
Proof. by repeat constructor. Qed.

Lemma parse_value_O s : parse_value 0 s = None.
Proof. reflexivity. Qed.

(** The parser looks at the text only past its leading white space. *)
Lemma parse_value_skip f s : parse_value f (skip_ws s) = parse_value f s.
Proof.
  destruct f; [done|].
  assert (skip_ws (skip_ws s) = skip_ws s) as H.
  { induction s as [|c s IH]; [done|]. simpl.
    destruct (is_json_ws c) eqn:E; [done|]. simpl. by rewrite E. }
  cbn [parse_value]. by rewrite H.
Qed.

Lemma parse_value_ws f w s :
  ws_only w → parse_value f (w ++ s) = parse_value f s.
Proof.
  intros H. rewrite <- (parse_value_skip f (w ++ s)).
  rewrite skip_ws_app by done. apply parse_value_skip.
Qed.

Lemma parse_members_skip f s :
  parse_members f (skip_ws s) = parse_members f s.
Proof.
  destruct f; [done|].
  assert (skip_ws (skip_ws s) = skip_ws s) as H.
  { induction s as [|c s IH]; [done|]. simpl.
    destruct (is_json_ws c) eqn:E; [done|]. simpl. by rewrite E. }
  cbn [parse_members]. by rewrite H.
Qed.

Lemma parse_members_ws f w s :
  ws_only w → parse_members f (w ++ s) = parse_members f s.
Proof.
  intros H. rewrite <- (parse_members_skip f (w ++ s)).
  rewrite skip_ws_app by done. apply parse_members_skip.
Qed.

Lemma parse_null f rest :
  parse_value (S f) (110 :: 117 :: 108 :: 108 :: rest) = Some (JNull, rest).
Proof. reflexivity. Qed.

Lemma parse_true f rest :
  parse_value (S f) (116 :: 114 :: 117 :: 101 :: rest)
  = Some (JBool true, rest).
Proof. reflexivity. Qed.

Lemma parse_false f rest :
  parse_value (S f) (102 :: 97 :: 108 :: 115 :: 101 :: rest)
  = Some (JBool false, rest).
Proof. reflexivity. Qed.

Lemma parse_string f t s rest :
  parse_chars t = Some (s, rest) →
  parse_value (S f) (34 :: t) = Some (JStr s, rest).
Proof. intros H. cbn. by rewrite H. Qed.

Lemma parse_array_empty f rest :
  parse_value (S f) (91 :: 93 :: rest) = Some (JArr [], rest).
Proof. reflexivity. Qed.

Lemma parse_object_empty f rest :
  parse_value (S f) (123 :: 125 :: rest) = Some (JObj [], rest).
Proof. reflexivity. Qed.

Lemma parse_array f r c' r' vs rest :
  skip_ws r = c' :: r' → c' ≠ 93 →
  parse_elements f r = Some (vs, rest) →
  parse_value (S f) (91 :: r) = Some (JArr vs, rest).
Proof.
  intros Hs Hc He.
  change (parse_value (S f) (91 :: r))
    with (match skip_ws r with
          | [] => None
          | c' :: r' =>
              if c' =? 93 then Some (JArr [], r')
              else '(vs, rest) ← parse_elements f r; Some (JArr vs, rest)
          end).
  rewrite Hs. destruct (N.eqb_spec c' 93); [done|]. by rewrite He.
Qed.

Lemma parse_object f r c' r' ms rest :
  skip_ws r = c' :: r' → c' ≠ 125 →
  parse_members f r = Some (ms, rest) →
  parse_value (S f) (123 :: r)
  = Some (JObj (fold_left define_property ms []), rest).
Proof.
  intros Hs Hc He.
  change (parse_value (S f) (123 :: r))
    with (match skip_ws r with
          | [] => None
          | c' :: r' =>
              if c' =? 125 then Some (JObj [], r')
              else '(ms, rest) ← parse_members f r;
                   Some (JObj (fold_left define_property ms []), rest)
          end).
  rewrite Hs. destruct (N.eqb_spec c' 125); [done|]. by rewrite He.
Qed.

Lemma parse_elements_last f s v r r' :
  parse_value f s = Some (v, r) → skip_ws r = 93 :: r' →
  parse_elements (S f) s = Some ([v], r').
Proof. intros Hv Hs. cbn [parse_elements]. rewrite Hv. simpl. by rewrite Hs. Qed.

Lemma parse_elements_more f s v r r' vs rest :
  parse_value f s = Some (v, r) → skip_ws r = 44 :: r' →
  parse_elements f r' = Some (vs, rest) →
  parse_elements (S f) s = Some (v :: vs, rest).
Proof.
  intros Hv Hs He. cbn [parse_elements]. rewrite Hv. simpl. rewrite Hs.
  simpl. by rewrite He.
Qed.

Lemma parse_members_last f s t k r2 v r3 r4 :
  skip_ws s = 34 :: t →
  parse_chars t = Some (k, 58 :: r2) →
  parse_value f r2 = Some (v, r3) → skip_ws r3 = 125 :: r4 →
  parse_members (S f) s = Some ([(k, v)], r4).
Proof.
  intros Hs Hk Hv Hr. cbn [parse_members]. rewrite Hs. simpl.
  rewrite Hk. simpl. rewrite Hv. simpl. by rewrite Hr.
Qed.

Lemma parse_members_more f s t k r2 v r3 r4 ms rest :
  skip_ws s = 34 :: t →
  parse_chars t = Some (k, 58 :: r2) →
  parse_value f r2 = Some (v, r3) → skip_ws r3 = 44 :: r4 →
  parse_members f r4 = Some (ms, rest) →
  parse_members (S f) s = Some ((k, v) :: ms, rest).
Proof.
  intros Hs Hk Hv Hr Hm. cbn [parse_members]. rewrite Hs. simpl.
  rewrite Hk. simpl. rewrite Hv. simpl. rewrite Hr. simpl. by rewrite Hm.
Qed.

End ParserSteps.

(** ** The backup codec: the fuel of the parser is enough *)

Section Fuel.

Lemma skip_ws_length s : (length (skip_ws s) ≤ length s)%nat.
Proof.
  induction s as [|c s IH]; [done|]. simpl.
  destruct (is_json_ws c); simpl; lia.
Qed.

Lemma skip_ws_cons_length s c r :
  skip_ws s = c :: r → (length r < length s)%nat.
Proof.
  intros H. pose proof (skip_ws_length s) as Hl. rewrite H in Hl.
  simpl in Hl. lia.
Qed.

Lemma parse_chars_length s str rest :
  parse_chars s = Some (str, rest) → (length rest < length s)%nat.
Proof.
  remember (length s) as n eqn:Hn. revert s str rest Hn.
  induction (lt_wf n) as [n _ IH]. intros s str rest -> H.
  destruct s as [|c r]; [done|]. cbn [parse_chars] in H.
  destruct (c =? 34); [simplify_eq; simpl; lia|].
  destruct (c =? 92).
  - destruct r as [|e r1]; [done|].
    destruct (e =? 117).
    + destruct r1 as [|h1 [|h2 [|h3 [|h4 r2]]]]; try done.
      destruct (hex4 h1 h2 h3 h4); [|done].
      destruct (parse_chars r2) as [[str' rest']|] eqn:E; [|done].
      simplify_eq.
      assert (length rest < length r2)%nat;
        [by eapply (IH (length r2)); [simpl; lia|..]|simpl; lia].
    + destruct (simple_escape e); [|done].
      destruct (parse_chars r1) as [[str' rest']|] eqn:E; [|done].
      simplify_eq.
      assert (length rest < length r1)%nat;
        [by eapply (IH (length r1)); [simpl; lia|..]|simpl; lia].
  - destruct (c <? 32); [done|].
    destruct (parse_chars r) as [[str' rest']|] eqn:E; [|done].
    simplify_eq.
    assert (length rest < length r)%nat;
      [by eapply (IH (length r)); [simpl; lia|..]|simpl; lia].
Qed.

Lemma strip_prefix_length p s r :
  strip_prefix p s = Some r → (length r ≤ length s)%nat.
Proof.
  revert s. induction p as [|a p IH]; intros [|b s] H; simplify_eq/=;
    try lia.
  destruct (a =? b); [|done]. apply IH in H. lia.
Qed.

Lemma span_digits_length s ds r :
  span_digits s = (ds, r) → (length r ≤ length s)%nat.
Proof.
  revert ds r. induction s as [|c s IH]; intros ds r H; simpl in H.
  - by simplify_eq.
  - destruct (is_digit c); [|simplify_eq; done].
    destruct (span_digits s) as [ds' r'] eqn:E. simplify_eq.
    specialize (IH _ _ eq_refl). simpl. lia.
Qed.

Lemma parse_number_length s n r :
  parse_number s = Some (n, r) → (length r < length s)%nat.
Proof.
  unfold parse_number.
  set (start := match s with
                | c :: r0 => if c =? 45 then (true, r0) else (false, s)
                | [] => (false, s)
                end).
  assert (length start.2 ≤ length s)%nat as Hstart.
  { subst start. destruct s as [|c r0]; [done|].
    destruct (c =? 45); simpl; lia. }
  destruct start as [minus s1]. simpl in Hstart.
  destruct (parse_int_part s1) as [[ip s2]|] eqn:Ei; [|done].
  assert (length s2 < length s1)%nat as H2.
  { unfold parse_int_part in Ei. destruct s1 as [|c r1]; [done|].
    destruct (c =? 48); [simplify_eq; simpl; lia|].
    destruct (is_digit c) eqn:Ed; [|done]. injection Ei as Ei.
    cbn [span_digits] in Ei. rewrite Ed in Ei.
    destruct (span_digits r1) as [ds' r'] eqn:E. simplify_eq.
    apply span_digits_length in E. simpl. lia. }
  cbn [mbind option_bind]. 
  destruct (parse_frac_part s2) as [[fp s3]|] eqn:Ef; [|done].
  assert (length s3 ≤ length s2)%nat as H3.
  { unfold parse_frac_part in Ef. destruct s2 as [|c r2]; [by simplify_eq|].
    destruct (c =? 46); [|by simplify_eq].
    destruct (span_digits r2) as [[|d ds] r3] eqn:E; [done|]. simplify_eq.
    apply span_digits_length in E. simpl. lia. }
  cbn [mbind option_bind].
  destruct (parse_exp_part s3) as [[e s4]|] eqn:Ee; [|done].
  assert (length s4 ≤ length s3)%nat as H4.
  { unfold parse_exp_part in Ee. destruct s3 as [|c r3]; [by simplify_eq|].
    destruct ((c =? 101) || (c =? 69)); [|by simplify_eq].
    set (sg := match r3 with
               | d :: r' => if d =? 45 then (true, r')
                            else if d =? 43 then (false, r') else (false, r3)
               | [] => (false, r3)
               end) in Ee.
    assert (length sg.2 ≤ length r3)%nat as Hsg.
    { subst sg. destruct r3 as [|d r']; [done|].
      destruct (d =? 45); [simpl; lia|]. destruct (d =? 43); simpl; lia. }
    destruct sg as [m r4]. simpl in Hsg.
    destruct (span_digits r4) as [[|d ds] r5] eqn:E; [done|]. simplify_eq.
    apply span_digits_length in E. simpl. lia. }
  cbn [mbind option_bind]. intros [= <- <-]. lia.
Qed.


Lemma parse_value_unfold f s :
  parse_value (S f) s
  = match skip_ws s with
    | [] => None
    | c :: r =>
        if c =? 123 then
          match skip_ws r with
          | [] => None
          | c' :: r' =>
              if c' =? 125 then Some (JObj [], r')
              else
                '(ms, rest) ← parse_members f r;
                Some (JObj (fold_left define_property ms []), rest)
          end
        else if c =? 91 then
          match skip_ws r with
          | [] => None
          | c' :: r' =>
              if c' =? 93 then Some (JArr [], r')
              else '(vs, rest) ← parse_elements f r; Some (JArr vs, rest)
          end
        else if c =? 34 then
          '(str, rest) ← parse_chars r; Some (JStr str, rest)
        else if c =? 116 then
          rest ← strip_prefix (js "rue") r; Some (JBool true, rest)
        else if c =? 102 then
          rest ← strip_prefix (js "alse") r; Some (JBool false, rest)
        else if c =? 110 then
          rest ← strip_prefix (js "ull") r; Some (JNull, rest)
        else '(n, rest) ← parse_number (c :: r); Some (JNum n, rest)
    end.
Proof. reflexivity. Qed.

Lemma parse_elements_unfold f s :
  parse_elements (S f) s
  = '(v, r) ← parse_value f s;
    match skip_ws r with
    | [] => None
    | c :: r' =>
        if c =? 44 then
          '(vs, rest) ← parse_elements f r'; Some (v :: vs, rest)
        else if c =? 93 then Some ([v], r')
        else None
    end.
Proof. reflexivity. Qed.

Lemma parse_members_unfold f s :
  parse_members (S f) s
  = match skip_ws s with
    | [] => None
    | c :: r =>
        if c =? 34 then
          '(k, r1) ← parse_chars r;
          match skip_ws r1 with
          | [] => None
          | c1 :: r2 =>
              if c1 =? 58 then
                '(v, r3) ← parse_value f r2;
                match skip_ws r3 with
                | [] => None
                | c3 :: r4 =>
                    if c3 =? 44 then
                      '(ms, rest) ← parse_members f r4;
                      Some ((k, v) :: ms, rest)
                    else if c3 =? 125 then Some ([(k, v)], r4)
                    else None
                end
              else None
          end
        else None
    end.
Proof. reflexivity. Qed.

(** A successful parse consumes text, and succeeds with the same result
    on any fuel that is at least the number of characters consumed. *)
Lemma parse_fuel f :
  (∀ s v r, parse_value f s = Some (v, r) →
     (length r < length s)%nat
     ∧ ∀ f1, (length s - length r ≤ f1)%nat →
             parse_value f1 s = Some (v, r))
  ∧ (∀ s vs r, parse_elements f s = Some (vs, r) →
       (length r < length s)%nat
       ∧ ∀ f1, (length s - length r ≤ f1)%nat →
               parse_elements f1 s = Some (vs, r))
  ∧ (∀ s ms r, parse_members f s = Some (ms, r) →
       (length r < length s)%nat
       ∧ ∀ f1, (length s - length r ≤ f1)%nat →
               parse_members f1 s = Some (ms, r)).
Proof.
  induction f as [|f (IHv & IHe & IHm)]; [by split_and!|].
  split_and!.
  - intros s v r H. rewrite parse_value_unfold in H.
    destruct (skip_ws s) as [|c r0] eqn:Es; [done|].
    pose proof (skip_ws_cons_length _ _ _ Es) as Hl0.
    destruct (c =? 123) eqn:E1; [|destruct (c =? 91) eqn:E2;
      [|destruct (c =? 34) eqn:E3;
        [|destruct (c =? 116) eqn:E4;
          [|destruct (c =? 102) eqn:E5;
            [|destruct (c =? 110) eqn:E6]]]]].
    + destruct (skip_ws r0) as [|c' r'] eqn:Es'; [done|].
      pose proof (skip_ws_cons_length _ _ _ Es') as Hl1.
      destruct (c' =? 125) eqn:E'.
      * simplify_eq. split; [lia|]. intros [|f1] Hf1; [lia|].
        by rewrite parse_value_unfold, Es, E1, Es', E'.
      * destruct (parse_members f r0) as [[ms rest]|] eqn:Em; [|done].
        simpl in H. simplify_eq.
        destruct (IHm _ _ _ Em) as [Hlen Hf]. split; [lia|].
        intros [|f1] Hf1; [lia|].
        rewrite parse_value_unfold, Es, E1, Es', E', (Hf f1) by lia. done.
    + destruct (skip_ws r0) as [|c' r'] eqn:Es'; [done|].
      pose proof (skip_ws_cons_length _ _ _ Es') as Hl1.
      destruct (c' =? 93) eqn:E'.
      * simplify_eq. split; [lia|]. intros [|f1] Hf1; [lia|].
        by rewrite parse_value_unfold, Es, E1, E2, Es', E'.
      * destruct (parse_elements f r0) as [[vs rest]|] eqn:Em; [|done].
        simpl in H. simplify_eq.
        destruct (IHe _ _ _ Em) as [Hlen Hf]. split; [lia|].
        intros [|f1] Hf1; [lia|].
        rewrite parse_value_unfold, Es, E1, E2, Es', E', (Hf f1) by lia.
        done.
    + destruct (parse_chars r0) as [[str rest]|] eqn:Ec; [|done].
      simpl in H. simplify_eq. apply parse_chars_length in Ec as Hlen.
      split; [lia|]. intros [|f1] Hf1; [lia|].
      by rewrite parse_value_unfold, Es, E1, E2, E3, Ec.
    + destruct (strip_prefix (js "rue") r0) as [rest|] eqn:Ec; [|done].
      simpl in H. simplify_eq. apply strip_prefix_length in Ec as Hlen.
      split; [lia|]. intros [|f1] Hf1; [lia|].
      by rewrite parse_value_unfold, Es, E1, E2, E3, E4, Ec.
    + destruct (strip_prefix (js "alse") r0) as [rest|] eqn:Ec; [|done].
      simpl in H. simplify_eq. apply strip_prefix_length in Ec as Hlen.
      split; [lia|]. intros [|f1] Hf1; [lia|].
      by rewrite parse_value_unfold, Es, E1, E2, E3, E4, E5, Ec.
    + destruct (strip_prefix (js "ull") r0) as [rest|] eqn:Ec; [|done].
      simpl in H. simplify_eq. apply strip_prefix_length in Ec as Hlen.
      split; [lia|]. intros [|f1] Hf1; [lia|].
      by rewrite parse_value_unfold, Es, E1, E2, E3, E4, E5, E6, Ec.
    + destruct (parse_number (c :: r0)) as [[n rest]|] eqn:Ec; [|done].
      simpl in H. simplify_eq. apply parse_number_length in Ec as Hlen.
      simpl in Hlen. split; [lia|]. intros [|f1] Hf1; [lia|].
      by rewrite parse_value_unfold, Es, E1, E2, E3, E4, E5, E6, Ec.
  - intros s vs r H. rewrite parse_elements_unfold in H.
    destruct (parse_value f s) as [[v r1]|] eqn:Ev; [|done]. simpl in H.
    destruct (IHv _ _ _ Ev) as [Hlv Hfv].
    destruct (skip_ws r1) as [|c r2] eqn:Es; [done|].
    pose proof (skip_ws_cons_length _ _ _ Es) as Hl1.
    destruct (c =? 44) eqn:E1; [|destruct (c =? 93) eqn:E2; [|done]].
    + destruct (parse_elements f r2) as [[vs' rest]|] eqn:Ee; [|done].
      simpl in H. simplify_eq.
      destruct (IHe _ _ _ Ee) as [Hle Hfe]. split; [lia|].
      intros [|f1] Hf1; [lia|].
      rewrite parse_elements_unfold, (Hfv f1) by lia. simpl.
      rewrite Es, E1, (Hfe f1) by lia. done.
    + simplify_eq. split; [lia|]. intros [|f1] Hf1; [lia|].
      rewrite parse_elements_unfold, (Hfv f1) by lia. simpl.
      by rewrite Es, E1, E2.
  - intros s ms r H. rewrite parse_members_unfold in H.
    destruct (skip_ws s) as [|c r0] eqn:Es; [done|].
    pose proof (skip_ws_cons_length _ _ _ Es) as Hl0.
    destruct (c =? 34) eqn:E1; [|done].
    destruct (parse_chars r0) as [[k r1]|] eqn:Ek; [|done]. simpl in H.
    apply parse_chars_length in Ek as Hlk.
    destruct (skip_ws r1) as [|c1 r2] eqn:Es1; [done|].
    pose proof (skip_ws_cons_length _ _ _ Es1) as Hl1.
    destruct (c1 =? 58) eqn:E2; [|done].
    destruct (parse_value f r2) as [[v r3]|] eqn:Ev; [|done]. simpl in H.
    destruct (IHv _ _ _ Ev) as [Hlv Hfv].
    destruct (skip_ws r3) as [|c3 r4] eqn:Es3; [done|].
    pose proof (skip_ws_cons_length _ _ _ Es3) as Hl3.
    destruct (c3 =? 44) eqn:E3; [|destruct (c3 =? 125) eqn:E4; [|done]].
    + destruct (parse_members f r4) as [[ms' rest]|] eqn:Em; [|done].
      simpl in H. simplify_eq.
      destruct (IHm _ _ _ Em) as [Hlm Hfm]. split; [lia|].
      intros [|f1] Hf1; [lia|].
      rewrite parse_members_unfold, Es, E1, Ek. simpl.
      rewrite Es1, E2, (Hfv f1) by lia. simpl.
      rewrite Es3, E3, (Hfm f1) by lia. done.
    + simplify_eq. split; [lia|]. intros [|f1] Hf1; [lia|].
      rewrite parse_members_unfold, Es, E1, Ek. simpl.
      rewrite Es1, E2, (Hfv f1) by lia. simpl.
      by rewrite Es3, E3, E4.
Qed.

(** A parse that succeeds on some fuel succeeds on the fuel that
    [JSON_parse] takes. *)
Lemma parse_value_fuel_enough f s v r :
  parse_value f s = Some (v, r) →
  parse_value (S (length s)) s = Some (v, r).
Proof.
  intros H. destruct (parse_fuel f) as (Hv & _ & _).
  destruct (Hv _ _ _ H) as [_ Hf]. apply Hf. lia.
Qed.

(** [JSON_parse] returns [v] exactly when the text is one value [v],
    parsed on some fuel, followed by white space only. *)
Lemma JSON_parse_Normal text v :
  JSON_parse text = Normal v
  ↔ ∃ f rest, parse_value f text = Some (v, rest) ∧ skip_ws rest = [].
Proof.
  unfold JSON_parse. split.
  - destruct (parse_value (S (length text)) text) as [[v' rest]|] eqn:E;
      [|done].
    destruct (skip_ws rest) eqn:Es; [|done]. intros [= <-]. eauto.
  - intros (f & rest & Hp & Hs).
    by rewrite (parse_value_fuel_enough _ _ _ _ Hp), Hs.
Qed.

End Fuel.

(** ** The backup codec: parsing what was serialized *)

(** Induction on values, with the hypothesis for every element of an
    array and every member of an object. *)
Lemma JsValue_nested_ind (P : JsValue → Prop) :
  P JNull →
  (∀ b, P (JBool b)) →
  (∀ n, P (JNum n)) →
  (∀ s, P (JStr s)) →
  (∀ elems, Forall P elems → P (JArr elems)) →
  (∀ props, Forall (λ kv, P kv.2) props → P (JObj props)) →
  ∀ v, P v.
Proof.
  intros Hnull Hbool Hnum Hstr Harr Hobj.
  fix IH 1. intros [| b | n | s | elems | props].
  - exact Hnull.
  - apply Hbool.
  - apply Hnum.
  - apply Hstr.
  - apply Harr. induction elems as [|e elems IHl]; constructor.
    + apply IH.
    + exact IHl.
  - apply Hobj. induction props as [|[k e] props IHl]; constructor.
    + apply IH.
    + exact IHl.
Qed.

Lemma sum_list_cons x l : sum_list (x :: l) = (x + sum_list l)%nat.
Proof. reflexivity. Qed.

Lemma join_cons_cons sep p q ps :
  join sep (p :: q :: ps) = p ++ sep ++ join sep (q :: ps).
Proof. unfold join. simpl. by rewrite <- app_assoc. Qed.

Lemma join_cons_nonempty sep p ps :
  ps ≠ [] → join sep (p :: ps) = p ++ sep ++ join sep ps.
Proof. destruct ps; [done|]. intros _. apply join_cons_cons. Qed.

Lemma join_cons sep p ps :
  join sep (p :: ps) = p ++ concat ((λ q, sep ++ q) <$> ps).
Proof. reflexivity. Qed.

Lemma join_singleton sep p : join sep [p] = p.
Proof. unfold join. simpl. by rewrite app_nil_r. Qed.

(** A key without a leading digit pattern is appended by
    [define_property]; building an object from members with pairwise
    distinct, non-index keys gives the members in order. *)
Lemma define_property_fresh props k v :
  k ∉ props.*1 → array_index k = None →
  define_property props (k, v) = props ++ [(k, v)].
Proof.
  intros Hk Hi. unfold define_property.
  rewrite bool_decide_eq_false_2 by done. by rewrite Hi.
Qed.

Lemma fold_define_property ms acc :
  NoDup (acc.*1 ++ ms.*1) →
  Forall (λ kv, array_index kv.1 = None) ms →
  fold_left define_property ms acc = acc ++ ms.
Proof.
  revert acc. induction ms as [|[k v] ms IH]; intros acc Hnd Hidx.
  - by rewrite app_nil_r.
  - apply Forall_cons in Hidx as [Hk Hidx]. cbn [fst] in Hk.
    rewrite fmap_cons in Hnd. cbn [fst fold_left] in *.
    apply NoDup_app in Hnd as Hnd'. destruct Hnd' as (_ & Hdisj & _).
    rewrite define_property_fresh; [|intros Hin; apply (Hdisj k Hin); left|done].
    rewrite IH; [by rewrite <- app_assoc| |done].
    rewrite fmap_app, fmap_cons, fmap_nil. cbn [fst].
    by rewrite <- app_assoc.
Qed.

Section RoundTrip.
Variable Number_toString : decimal → jsstring.
Variable gap : jsstring.
Hypothesis gap_ws : ws_only gap.

#[local] Abbreviation Ser := (SerializeJSONProperty Number_toString gap).
#[local] Abbreviation Wrap := (wrap gap).

(** A non-empty bracketed list: the opening bracket, the parts separated
    by commas, the closing bracket, with only white space in between. *)
Lemma wrap_nonempty open close stepback p ps :
  ws_only stepback →
  ∃ w1 w2 w3,
    ws_only w1 ∧ ws_only w2 ∧ ws_only w3
    ∧ Wrap open close stepback (p :: ps)
      = open :: w1 ++ join (44 :: w2) (p :: ps) ++ w3 ++ [close].
Proof.
  intros Hs. unfold wrap. destruct (truthy_str gap) eqn:Eg.
  - exists (10 :: stepback ++ gap), (10 :: stepback ++ gap), (10 :: stepback).
    split_and!;
      try (apply ws_only_newline; try apply ws_only_app; done).
    simpl. by rewrite <- !app_assoc.
  - exists [], [], []. split_and!; try apply ws_only_nil. done.
Qed.

Lemma wrap_head open close stepback parts :
  ∃ t, Wrap open close stepback parts = open :: t.
Proof.
  unfold wrap. destruct parts; [by eexists|].
  destruct (truthy_str gap); by eexists.
Qed.

(** What is serialized starts with a character that is neither white
    space nor a closing bracket. *)
Lemma serialize_head indent v :
  roundtrips v = true →
  ∃ c t, Ser indent v = c :: t
         ∧ is_json_ws c = false ∧ c ≠ 93 ∧ c ≠ 125.
Proof.
  intros Hv. destruct v as [| [|] | n | s | elems | props]; try done.
  - by exists 110, [117; 108; 108].
  - by exists 116, [114; 117; 101].
  - by exists 102, [97; 108; 115; 101].
  - eexists 34, _. by split.
  - cbn [SerializeJSONProperty].
    destruct (wrap_head 91 93 indent (Ser (indent ++ gap) <$> elems))
      as [t ->].
    by exists 91, t.
  - cbn [SerializeJSONProperty].
    match goal with
    | |- ∃ c t, Wrap 123 125 indent ?parts = _ ∧ _ =>
        destruct (wrap_head 123 125 indent parts) as [t ->]
    end.
    by exists 123, t.
Qed.

(** The property proved by induction: a serialized value, followed by
    any text, is parsed back, leaving that text. *)
Definition parses_back (v : JsValue) : Prop :=
  roundtrips v = true →
  ∀ indent rest fuel,
    ws_only indent → (size v ≤ fuel)%nat →
    parse_value fuel (Ser indent v ++ rest) = Some (v, rest).

Lemma parse_elements_serialized indent vs :
  Forall parses_back vs →
  forallb roundtrips vs = true →
  vs ≠ [] →
  ws_only indent →
  ∀ w w2 w3 rest fuel,
    ws_only w → ws_only w2 → ws_only w3 →
    (sum_list ((λ e, S (size e)) <$> vs) ≤ fuel)%nat →
    parse_elements fuel
      (w ++ join (44 :: w2) (Ser indent <$> vs) ++ w3 ++ 93 :: rest)
    = Some (vs, rest).
Proof.
  intros Hall Hrt Hne Hind.
  induction Hall as [|v vs Hv Hall IH]; [done|].
  intros w w2 w3 rest fuel Hw Hw2 Hw3 Hfuel.
  apply andb_prop in Hrt as [Hrv Hrt].
  rewrite fmap_cons, sum_list_cons in Hfuel.
  destruct fuel as [|f]; [lia|].
  destruct vs as [|v' vs].
  - rewrite fmap_cons, fmap_nil, join_singleton.
    eapply parse_elements_last.
    + rewrite parse_value_ws by done. apply Hv; [done..|]. simpl in *. lia.
    + rewrite skip_ws_app by done. by apply skip_ws_stop.
  - rewrite !fmap_cons, join_cons_cons, <- !app_assoc.
    eapply parse_elements_more.
    + rewrite parse_value_ws by done. apply Hv; [done..|]. lia.
    + rewrite <- app_comm_cons. by apply skip_ws_stop.
    + rewrite <- fmap_cons. apply IH; [done..|]. lia.
Qed.

Lemma parse_members_serialized indent props :
  Forall (λ kv, parses_back kv.2) props →
  forallb (λ kv, roundtrips kv.2) props = true →
  props ≠ [] →
  ws_only indent →
  ∀ w w2 w3 rest fuel,
    ws_only w → ws_only w2 → ws_only w3 →
    (sum_list ((λ kv, S (size kv.2)) <$> props) ≤ fuel)%nat →
    parse_members fuel
      (w ++ join (44 :: w2)
              ((λ kv, QuoteJSONString kv.1 ++ [58]
                      ++ (if truthy_str gap then [32] else [])
                      ++ Ser indent kv.2) <$> props)
         ++ w3 ++ 125 :: rest)
    = Some (props, rest).
Proof.
  intros Hall Hrt Hne Hind.
  assert (ws_only (if truthy_str gap then [32] else [])) as Hsp.
  { destruct (truthy_str gap); [apply ws_only_space|apply ws_only_nil]. }
  induction Hall as [|[k v] props Hv Hall IH]; [done|].
  intros w w2 w3 rest fuel Hw Hw2 Hw3 Hfuel.
  apply andb_prop in Hrt as [Hrv Hrt]. simpl in Hv, Hrv.
  rewrite fmap_cons, sum_list_cons in Hfuel. cbn [snd] in Hfuel.
  destruct fuel as [|f]; [lia|].
  destruct props as [|kv' props].
  - rewrite fmap_cons, fmap_nil, join_singleton. cbn [fst snd].
    rewrite <- !app_assoc.
    destruct (parse_chars_QuoteJSONString k
                ([58] ++ (if truthy_str gap then [32] else [])
                 ++ Ser indent v ++ w3 ++ 125 :: rest)) as (t & -> & Ht).
    eapply parse_members_last.
    + rewrite skip_ws_app by done. by apply skip_ws_stop.
    + exact Ht.
    + rewrite parse_value_ws by done. apply Hv; [done..|]. lia.
    + rewrite skip_ws_app by done. by apply skip_ws_stop.
  - rewrite (fmap_cons _ (k, v)), join_cons_nonempty by done.
    cbn [fst snd]. rewrite <- !app_assoc.
    match goal with
    | |- parse_members _ (w ++ QuoteJSONString k ++ ?tail) = _ =>
        destruct (parse_chars_QuoteJSONString k tail) as (t & -> & Ht)
    end.
    eapply parse_members_more.
    + rewrite skip_ws_app by done. by apply skip_ws_stop.
    + exact Ht.
    + rewrite parse_value_ws by done. apply Hv; [done..|]. lia.
    + rewrite <- app_comm_cons. by apply skip_ws_stop.
    + apply IH; [done..|]. lia.
Qed.

Lemma parse_value_serialized v : parses_back v.
Proof.
  induction v as [| b | n | s | elems IH | props IH]
    using JsValue_nested_ind;
    intros Hrt indent rest fuel Hind Hfuel;
    (destruct fuel as [|f]; [simpl in Hfuel; lia|]).
  - apply parse_null.
  - destruct b; [apply parse_true|apply parse_false].
  - done.
  - cbn [SerializeJSONProperty].
    destruct (parse_chars_QuoteJSONString s rest) as (t & -> & Ht).
    by apply parse_string.
  - cbn [SerializeJSONProperty roundtrips size] in *.
    destruct elems as [|e elems]; [apply parse_array_empty|].
    destruct (wrap_nonempty 91 93 indent (Ser (indent ++ gap) e)
                (Ser (indent ++ gap) <$> elems) Hind)
      as (w1 & w2 & w3 & Hw1 & Hw2 & Hw3 & Hwrap).
    rewrite fmap_cons, Hwrap. cbn [app]. rewrite <- !app_assoc.
    assert (roundtrips e = true) as Hre by (by apply andb_prop in Hrt as []).
    destruct (serialize_head (indent ++ gap) e Hre)
      as (c & t & Hc & Hws & Hc93 & _).
    eapply parse_array.
    + rewrite skip_ws_app by done. rewrite join_cons, Hc.
      rewrite <- !app_comm_cons. by apply skip_ws_stop.
    + done.
    + rewrite <- fmap_cons.
      apply parse_elements_serialized; try done.
      * by apply ws_only_app.
      * lia.
  - cbn [SerializeJSONProperty roundtrips size] in *.
    apply andb_prop in Hrt as [Hnd Hrt]. apply bool_decide_eq_true in Hnd.
    destruct props as [|[k e] props]; [apply parse_object_empty|].
    rewrite fmap_cons.
    match goal with
    | |- context [Wrap 123 125 indent (?p :: ?ps)] =>
        destruct (wrap_nonempty 123 125 indent p ps Hind)
          as (w1 & w2 & w3 & Hw1 & Hw2 & Hw3 & Hwrap)
    end.
    rewrite Hwrap.
    cbn [app]. rewrite <- !app_assoc.
    assert (fold_left define_property ((k, e) :: props) []
            = (k, e) :: props) as Hbuild.
    { rewrite fold_define_property; [done|done|].
      apply Forall_forall. intros kv Hkv.
      rewrite forallb_forall in Hrt. specialize (Hrt kv).
      rewrite <- list_elem_of_In in Hrt. specialize (Hrt Hkv).
      apply andb_prop in Hrt as [Hi _]. by apply bool_decide_eq_true in Hi. }
    transitivity
      (Some (JObj (fold_left define_property ((k, e) :: props) []), rest));
      [|by rewrite Hbuild].
    eapply parse_object.
    + rewrite skip_ws_app by done. rewrite join_cons.
      cbn [fst]. unfold QuoteJSONString. cbn [app].
      by apply skip_ws_stop.
    + done.
    + assert (forallb (λ kv, roundtrips kv.2) ((k, e) :: props) = true)
        as Hrt'.
      { clear -Hrt. induction ((k, e) :: props) as [|kv ps IHp]; [done|].
        simpl in *. apply andb_prop in Hrt as [H1 H2].
        apply andb_prop in H1 as [_ H1]. rewrite H1. by apply IHp. }
      assert (ws_only (indent ++ gap)) as Hind' by by apply ws_only_app.
      assert (sum_list ((λ kv, S (size kv.2)) <$> (k, e) :: props) ≤ f)%nat
        as Hf by lia.
      pose proof (parse_members_serialized (indent ++ gap) ((k, e) :: props)
                    IH Hrt' ltac:(done) Hind' w1 w2 w3 rest f
                    Hw1 Hw2 Hw3 Hf) as H.
      rewrite fmap_cons in H. exact H.
Qed.

End RoundTrip.

(** ** The backup codec: the text survives the [Blob] *)

Section WellFormed.

Lemma to_USVString_pair c d r :
  is_leading_surrogate c && is_trailing_surrogate d = true →
  to_USVString (c :: d :: r) = c :: d :: to_USVString r.
Proof. intros H. cbn [to_USVString]. by rewrite H. Qed.

Lemma to_USVString_single c d r :
  is_leading_surrogate c && is_trailing_surrogate d = false →
  to_USVString (c :: d :: r)
  = (if is_leading_surrogate c || is_trailing_surrogate c
     then 65533 else c) :: to_USVString (d :: r).
Proof. intros H. cbn [to_USVString]. by rewrite H. Qed.

Lemma replaced_surrogate_differs c :
  (if is_leading_surrogate c || is_trailing_surrogate c then 65533 else c)
  = c →
  is_leading_surrogate c || is_trailing_surrogate c = false.
Proof.
  destruct (_ || _) eqn:E; [|done]. intros <-. by vm_compute in E.
Qed.

(** A well-formed string stays as it is in front of any text. *)
Lemma to_USVString_app s t :
  well_formed s → to_USVString (s ++ t) = s ++ to_USVString t.
Proof.
  unfold well_formed.
  cut ((to_USVString s = s → to_USVString (s ++ t) = s ++ to_USVString t)
       ∧ ∀ c, to_USVString (c :: s) = c :: s →
              to_USVString ((c :: s) ++ t) = (c :: s) ++ to_USVString t);
    [tauto|].
  induction s as [|d s [IH1 IH2]].
  - split; [done|]. intros c H. injection H as H.
    apply replaced_surrogate_differs in H as Hc.
    apply orb_false_elim in Hc as [Hl _].
    destruct t as [|e t]; [by simpl; rewrite H|].
    cbn [app]. rewrite to_USVString_single by by rewrite Hl.
    by rewrite H.
  - split; [apply IH2|]. intros c H.
    destruct (is_leading_surrogate c && is_trailing_surrogate d) eqn:E.
    + rewrite to_USVString_pair in H by done. injection H as H.
      cbn [app]. rewrite to_USVString_pair by done. by rewrite IH1.
    + rewrite to_USVString_single in H by done. injection H as Hc H.
      cbn [app]. rewrite to_USVString_single by done.
      rewrite Hc. f_equal. by apply IH2.
Qed.

Lemma well_formed_app s t :
  well_formed s → well_formed t → well_formed (s ++ t).
Proof.
  intros Hs Ht. unfold well_formed. rewrite to_USVString_app by done.
  by rewrite Ht.
Qed.

Lemma well_formed_nil : well_formed [].
Proof. reflexivity. Qed.

(** A string without surrogates is well formed. *)
Lemma well_formed_no_surrogate s :
  Forall (λ c, is_leading_surrogate c || is_trailing_surrogate c = false) s →
  well_formed s.
Proof.
  induction 1 as [|c s Hc _ IH]; [done|].
  apply orb_false_elim in Hc as Hc'. destruct Hc' as [Hl _].
  unfold well_formed in *. destruct s as [|d s].
  - simpl. by rewrite Hc.
  - rewrite to_USVString_single by by rewrite Hl. by rewrite Hc, IH.
Qed.

Lemma below_surrogates c :
  c < 55296 → is_leading_surrogate c || is_trailing_surrogate c = false.
Proof.
  intros H. unfold is_leading_surrogate, is_trailing_surrogate.
  rewrite (proj2 (N.leb_gt 55296 c)) by lia.
  rewrite (proj2 (N.leb_gt 56320 c)) by lia. done.
Qed.

Lemma well_formed_below s :
  Forall (λ c, c < 55296) s → well_formed s.
Proof.
  intros H. apply well_formed_no_surrogate.
  eapply Forall_impl; [exact H|]. intros c. apply below_surrogates.
Qed.

Lemma well_formed_ws w : ws_only w → well_formed w.
Proof.
  intros H. apply well_formed_below. eapply Forall_impl; [exact H|].
  intros c Hc. unfold is_json_ws in Hc.
  repeat (apply orb_prop in Hc as [Hc|Hc]); apply N.eqb_eq in Hc; lia.
Qed.

Lemma hex_char_below d : d < 16 → hex_char d < 55296.
Proof. intros H. unfold hex_char. destruct (d <? 10); lia. Qed.

Lemma well_formed_quote_unit c : well_formed (quote_unit c).
Proof.
  unfold quote_unit.
  repeat match goal with
         | |- context [c =? ?k] =>
             destruct (N.eqb_spec c k) as [->|?]; [done|]
         end.
  destruct (_ || _ || _) eqn:E.
  - apply well_formed_below. unfold UnicodeEscape.
    repeat constructor; apply hex_char_below, N.mod_lt; lia.
  - apply well_formed_no_surrogate. constructor; [|constructor].
    apply orb_false_elim in E as [E Et]. apply orb_false_elim in E as [_ El].
    by rewrite El, Et.
Qed.

Lemma well_formed_quote_units s : well_formed (quote_units s).
Proof.
  cut (well_formed (quote_units s) ∧ ∀ c, well_formed (quote_units (c :: s)));
    [tauto|].
  induction s as [|d s [IH1 IH2]].
  - split; [done|]. intros c. apply well_formed_quote_unit.
  - split; [apply IH2|]. intros c. cbn [quote_units].
    fold (quote_units (d :: s)).
    destruct (is_leading_surrogate c && is_trailing_surrogate d) eqn:E.
    + unfold well_formed. rewrite to_USVString_pair by done. by rewrite IH1.
    + apply well_formed_app; [apply well_formed_quote_unit|apply IH2].
Qed.

Lemma well_formed_QuoteJSONString s : well_formed (QuoteJSONString s).
Proof.
  unfold QuoteJSONString.
  repeat apply well_formed_app; try apply well_formed_quote_units; done.
Qed.

Lemma well_formed_join sep parts :
  well_formed sep → Forall well_formed parts → well_formed (join sep parts).
Proof.
  intros Hsep Hparts. destruct Hparts as [|p ps Hp Hps]; [done|].
  rewrite join_cons. apply well_formed_app; [done|].
  induction Hps as [|q qs Hq _ IH]; [done|].
  rewrite fmap_cons. cbn [concat].
  by repeat apply well_formed_app.
Qed.

Section Serialized.
Variable Number_toString : decimal → jsstring.
Variable gap : jsstring.
Hypothesis gap_ws : ws_only gap.

Lemma well_formed_wrap open close stepback parts :
  open < 55296 → close < 55296 → ws_only stepback →
  Forall well_formed parts →
  well_formed (wrap gap open close stepback parts).
Proof.
  intros Ho Hc Hs Hparts.
  assert (well_formed [open]) by (apply well_formed_below; by repeat constructor).
  assert (well_formed [close]) by (apply well_formed_below; by repeat constructor).
  destruct parts as [|p ps].
  - by apply (well_formed_app [open] [close]).
  - destruct (wrap_nonempty gap gap_ws open close stepback p ps Hs)
      as (w1 & w2 & w3 & Hw1 & Hw2 & Hw3 & ->).
    apply (well_formed_app [open]); [done|].
    apply well_formed_app; [by apply well_formed_ws|].
    apply well_formed_app; [|by apply well_formed_app; [apply well_formed_ws|]].
    apply well_formed_join; [|done].
    apply (well_formed_app [44]); [done|by apply well_formed_ws].
Qed.

(** The text of a value that round-trips holds no surrogate on its
    own. *)
Lemma well_formed_serialized v :
  roundtrips v = true →
  ∀ indent, ws_only indent →
            well_formed (SerializeJSONProperty Number_toString gap indent v).
Proof.
  induction v as [| b | n | s | elems IH | props IH]
    using JsValue_nested_ind; intros Hrt indent Hind.
  - done.
  - by destruct b.
  - done.
  - apply well_formed_QuoteJSONString.
  - cbn [SerializeJSONProperty roundtrips] in *.
    apply well_formed_wrap; [lia|lia|done|].
    apply Forall_fmap. rewrite Forall_forall in IH. apply Forall_forall.
    intros e He. apply IH; [done| |by apply ws_only_app].
    rewrite forallb_forall in Hrt. apply Hrt. by apply list_elem_of_In.
  - cbn [SerializeJSONProperty roundtrips] in *.
    apply andb_prop in Hrt as [_ Hrt].
    apply well_formed_wrap; [lia|lia|done|].
    apply Forall_fmap. rewrite Forall_forall in IH. apply Forall_forall.
    intros kv Hkv. cbv beta.
    apply well_formed_app; [apply well_formed_QuoteJSONString|].
    apply (well_formed_app [58]); [done|].
    apply well_formed_app; [by destruct (truthy_str gap)|].
    apply IH; [done| |by apply ws_only_app].
    rewrite forallb_forall in Hrt. specialize (Hrt kv).
    rewrite <- list_elem_of_In in Hrt.
    by apply andb_prop in Hrt as [_ Hrt].
Qed.

End Serialized.

End WellFormed.

(** ** The backup codec: whole texts *)

Section Texts.
Variable Number_toString : decimal → jsstring.
Variable gap : jsstring.
Hypothesis gap_ws : ws_only gap.

#[local] Abbreviation Ser := (SerializeJSONProperty Number_toString gap).

Lemma concat_sep_length c sep (ps : list jsstring) :
  (sum_list ((λ p, S (length p)) <$> ps)
   ≤ length (concat ((λ q, (c :: sep) ++ q) <$> ps)))%nat.
Proof.
  induction ps as [|p ps IH]; [done|].
  rewrite !fmap_cons, sum_list_cons. cbn [concat].
  rewrite !length_app. cbn [length]. lia.
Qed.

(** A bracketed list is longer than its parts taken together. *)
Lemma wrap_length open close stepback (parts : list jsstring) :
  ws_only stepback →
  (S (sum_list ((λ p, S (length p)) <$> parts))
   ≤ length (wrap gap open close stepback parts))%nat.
Proof.
  intros Hs. destruct parts as [|p ps]; [simpl; lia|].
  destruct (wrap_nonempty gap gap_ws open close stepback p ps Hs)
    as (w1 & w2 & w3 & _ & _ & _ & ->).
  rewrite join_cons, fmap_cons, sum_list_cons.
  pose proof (concat_sep_length 44 w2 ps).
  cbn [length]. rewrite !length_app. cbn [length]. lia.
Qed.

Lemma sum_list_mono {A} (f g : A → nat) (l : list A) :
  Forall (λ x, f x ≤ g x)%nat l →
  (sum_list (f <$> l) ≤ sum_list (g <$> l))%nat.
Proof.
  induction 1 as [|x l Hx _ IH]; [done|].
  rewrite !fmap_cons, !sum_list_cons. lia.
Qed.

(** The text of a value has at least as many characters as the value
    has nodes: the fuel of [JSON_parse] is enough. *)
Lemma size_le_length v :
  roundtrips v = true →
  ∀ indent, ws_only indent → (size v ≤ length (Ser indent v))%nat.
Proof.
  induction v as [| b | n | s | elems IH | props IH]
    using JsValue_nested_ind; intros Hrt indent Hind.
  - simpl. lia.
  - destruct b; simpl; lia.
  - done.
  - cbn [SerializeJSONProperty size]. unfold QuoteJSONString.
    rewrite !length_app. simpl. lia.
  - cbn [SerializeJSONProperty size roundtrips] in *.
    etrans; [|by apply wrap_length].
    apply le_n_S. rewrite <- list_fmap_compose.
    apply sum_list_mono.
    rewrite Forall_forall in IH. apply Forall_forall. intros e He.
    unfold compose. apply le_n_S, IH; [done| |by apply ws_only_app].
    rewrite forallb_forall in Hrt. apply Hrt. by apply list_elem_of_In.
  - cbn [SerializeJSONProperty size roundtrips] in *.
    apply andb_prop in Hrt as [_ Hrt].
    etrans; [|by apply wrap_length].
    apply le_n_S. rewrite <- list_fmap_compose.
    apply sum_list_mono.
    rewrite Forall_forall in IH. apply Forall_forall. intros kv Hkv.
    unfold compose. rewrite !length_app.
    assert (size kv.2 ≤ length (Ser (indent ++ gap) kv.2))%nat; [|lia].
    apply IH; [done| |by apply ws_only_app].
    rewrite forallb_forall in Hrt. specialize (Hrt kv).
    rewrite <- list_elem_of_In in Hrt.
    by apply andb_prop in Hrt as [_ Hrt].
Qed.

(** [JSON.parse(JSON.stringify(v, null, gap))] is [v]. *)
Lemma JSON_parse_stringify v :
  roundtrips v = true →
  JSON_parse (JSON_stringify Number_toString gap v) = Normal v.
Proof.
  intros Hrt. unfold JSON_parse, JSON_stringify.
  pose proof (size_le_length v Hrt [] ws_only_nil) as Hsize.
  pose proof (parse_value_serialized Number_toString gap gap_ws v Hrt
                [] [] (S (length (Ser [] v))) ws_only_nil) as H.
  rewrite app_nil_r in H. rewrite H by lia. done.
Qed.

End Texts.

Lemma ws_only_two_spaces : ws_only two_spaces.
Proof. by repeat constructor. Qed.

(** ** The typed values as run-time values *)

Section Typed.

Lemma roundtrips_Hearing h : roundtrips (js_of_Hearing h) = true.
Proof. reflexivity. Qed.

Lemma roundtrips_LegalCase c : roundtrips (js_of_LegalCase c) = true.
Proof.
  assert (forallb roundtrips (js_of_Hearing <$> LegalCase.history c) = true)
    as H.
  { induction (LegalCase.history c) as [|h hs IH]; [done|].
    rewrite fmap_cons. cbn [forallb].
    by rewrite roundtrips_Hearing, IH. }
  unfold js_of_LegalCase. cbn [roundtrips forallb fst snd]. rewrite H.
  reflexivity.
Qed.

Lemma roundtrips_DiaryData d : roundtrips (js_of_DiaryData d) = true.
Proof.
  assert (forallb roundtrips (js_of_LegalCase <$> DiaryData.cases d) = true)
    as H.
  { induction (DiaryData.cases d) as [|c cs IH]; [done|].
    rewrite fmap_cons. cbn [forallb].
    by rewrite roundtrips_LegalCase, IH. }
  unfold js_of_DiaryData. cbn [roundtrips forallb fst snd]. rewrite H.
  by destruct (DiaryData.lastBackupDate d).
Qed.

Lemma CaseStatus_value_inj s s' :
  CaseStatus_value s = CaseStatus_value s' → s = s'.
Proof. destruct s, s'; intros H; try reflexivity; by vm_compute in H. Qed.

Lemma js_of_Hearing_inj h h' : js_of_Hearing h = js_of_Hearing h' → h = h'.
Proof. destruct h, h'. unfold js_of_Hearing. simpl. by intros [= -> -> ->]. Qed.

Lemma fmap_inj_list {A B} (f : A → B) (l l' : list A) :
  (∀ x y, f x = f y → x = y) → f <$> l = f <$> l' → l = l'.
Proof.
  intros Hf. revert l'. induction l as [|x l IH]; intros [|y l'] H;
    try done.
  rewrite !fmap_cons in H. injection H as Hxy Hl.
  f_equal; [by apply Hf|by apply IH].
Qed.

Lemma js_of_LegalCase_inj c c' :
  js_of_LegalCase c = js_of_LegalCase c' → c = c'.
Proof.
  destruct c, c'. unfold js_of_LegalCase. simpl.
  intros [= -> -> -> -> -> Hs -> Hh ->].
  apply CaseStatus_value_inj in Hs as ->.
  apply (fmap_inj_list _ _ _ js_of_Hearing_inj) in Hh as ->. done.
Qed.

(** Two datasets with the same run-time value agree field for field. *)
Lemma js_of_DiaryData_inj d d' :
  js_of_DiaryData d = js_of_DiaryData d' → d = d'.
Proof.
  destruct d as [cs lb name], d' as [cs' lb' name'].
  unfold js_of_DiaryData. simpl. intros [= Hc Hl ->].
  apply (fmap_inj_list _ _ _ js_of_LegalCase_inj) in Hc as ->.
  destruct lb, lb'; by simplify_eq.
Qed.

Lemma default_value_empty_diary : default_value = js_of_DiaryData empty_diary.
Proof. reflexivity. Qed.

End Typed.

(** ** [importFromJson] and [loadDiaryData] *)

Lemma importFromJson_object jsonStr props :
  JSON_parse jsonStr = Normal (JObj props) →
  importFromJson jsonStr
  = Normal (if isArray (obj_lookup (js "cases") props)
            then Some (JObj props) else None).
Proof.
  intros Hp. unfold importFromJson. rewrite Hp.
  change (data ← Normal (JObj props);
          test ← (if truthy data
                  then cases ← get_cases data; mret (isArray cases)
                  else mret false);
          if (test : bool) then mret (Some data) else mret None)
    with (if isArray (obj_lookup (js "cases") props)
          then Normal (Some (JObj props)) else Normal None).
  by destruct (isArray _).
Qed.

Lemma importFromJson_parsed jsonStr v :
  JSON_parse jsonStr = Normal v →
  (has_cases_array v ∧ importFromJson jsonStr = Normal (Some v))
  ∨ (¬ has_cases_array v ∧ importFromJson jsonStr = Normal None).
Proof.
  intros Hp.
  destruct v as [| b | n | s | elems | props];
    try (right; split; [by intros (? & ? & ? & ?)|];
         unfold importFromJson; rewrite Hp).
  - done.
  - by destruct b.
  - unfold mbind, completion_bind, truthy. by destruct (number_truthy n).
  - by destruct s.
  - done.
  - rewrite (importFromJson_object _ _ Hp).
    destruct (obj_lookup (js "cases") props) as [[|b|n|s|elems|ps]|] eqn:E;
      try (right; split; [intros (? & ? & [= <-] & ?); congruence|done]).
    left. split; [by exists props, elems|done].
Qed.

Lemma importFromJson_failed jsonStr e :
  JSON_parse jsonStr = Throw e → importFromJson jsonStr = Normal None.
Proof. intros Hp. unfold importFromJson. by rewrite Hp. Qed.

(** C5. For every input string, [importFromJson] returns the parsed
    value exactly when the string is valid JSON whose top-level value is
    an object with a [cases] property holding an array, whatever the
    elements; it returns [null] when parsing fails and when the value
    has another shape; it never throws. *)
Theorem C5_import_shallow_validation :
  ∀ jsonStr : jsstring,
    (∀ v, importFromJson jsonStr = Normal (Some v)
          ↔ JSON_parse jsonStr = Normal v ∧ has_cases_array v)
    ∧ (importFromJson jsonStr = Normal None
       ↔ (∃ e, JSON_parse jsonStr = Throw e)
         ∨ (∃ v, JSON_parse jsonStr = Normal v ∧ ¬ has_cases_array v))
    ∧ (∀ e, importFromJson jsonStr ≠ Throw e).
Proof.
  intros jsonStr.
  destruct (JSON_parse jsonStr) as [v|e] eqn:Hp.
  - destruct (importFromJson_parsed jsonStr v Hp) as [[Hs ->]|[Hs ->]].
    + split; [|split].
      * intros v'. split; [by intros [= <-]|by intros [[= <-] _]].
      * split; [done|]. intros [[e [=]]|(v' & [= <-] & Hn)]. done.
      * done.
    + split; [|split].
      * intros v'. split; [done|]. by intros [[= <-] Hs'].
      * split; [|done]. intros _. right. by exists v.
      * done.
  - rewrite (importFromJson_failed jsonStr e Hp). split; [|split].
    + intros v. split; [done|]. by intros [[=] _].
    + split; [|done]. intros _. left. by exists e.
    + done.
Qed.

Lemma C5_witness :
  importFromJson (js "[1, 2") = Normal None.
Proof.
  apply (proj2 (proj1 (proj2 (C5_import_shallow_validation (js "[1, 2"))))).
  left. exists SyntaxError. by vm_compute.
Defined.

(** The indented text of a dataset parses back to the dataset. *)
Lemma importFromJson_stringify (Number_toString : decimal → jsstring)
    (d : DiaryData.t) :
  importFromJson
    (JSON_stringify Number_toString two_spaces (js_of_DiaryData d))
  = Normal (Some (js_of_DiaryData d)).
Proof.
  pose proof (JSON_parse_stringify Number_toString two_spaces
                ws_only_two_spaces (js_of_DiaryData d)
                (roundtrips_DiaryData d)) as Hp.
  unfold js_of_DiaryData at 2 in Hp.
  rewrite (importFromJson_object _ _ Hp). reflexivity.
Qed.

(** The text of a dataset opens with a brace. *)
Lemma stringify_DiaryData_head (Number_toString : decimal → jsstring)
    (gap : jsstring) (d : DiaryData.t) :
  ∃ t, JSON_stringify Number_toString gap (js_of_DiaryData d) = 123 :: t.
Proof.
  unfold JSON_stringify, js_of_DiaryData. cbn [SerializeJSONProperty].
  apply wrap_head.
Qed.

(** The [Blob] of [exportToJson] holds the text unchanged, and reading
    the file gives it back. *)
Lemma readAsText_export (Number_toString : decimal → jsstring)
    (iso_name iso_stamp : jsstring) (d : DiaryData.t)
    (store : localStorage) :
  readAsText
    (content (exportToJson Number_toString iso_name iso_stamp d store).1.1)
  = JSON_stringify Number_toString two_spaces (js_of_DiaryData d).
Proof.
  pose proof (well_formed_serialized Number_toString two_spaces
                ws_only_two_spaces (js_of_DiaryData d)
                (roundtrips_DiaryData d) [] ws_only_nil) as Hwf.
  destruct (stringify_DiaryData_head Number_toString two_spaces d)
    as [t Ht].
  unfold exportToJson. cbn [fst content].
  unfold well_formed in Hwf. fold (JSON_stringify Number_toString two_spaces
                                     (js_of_DiaryData d)) in Hwf.
  rewrite Hwf, Ht. reflexivity.
Qed.

(** C6. For every dataset [D], reading the file that [exportToJson]
    produces for [D] (the JSON of [D], indented by two spaces) and
    passing the text to [importFromJson] returns the run-time value of
    [D]; and a dataset with that run-time value is [D] itself, field for
    field, hearings included. *)
Theorem C6_export_import_roundtrip :
  ∀ (Number_toString : decimal → jsstring) (iso_name iso_stamp : jsstring)
    (D : DiaryData.t) (store : localStorage),
    importFromJson
      (readAsText
         (content
            (exportToJson Number_toString iso_name iso_stamp D store).1.1))
    = Normal (Some (js_of_DiaryData D))
    ∧ (∀ D' : DiaryData.t, js_of_DiaryData D' = js_of_DiaryData D → D' = D).
Proof.
  intros nts iso_name iso_stamp D store. split.
  - rewrite readAsText_export. apply importFromJson_stringify.
  - intros D'. apply js_of_DiaryData_inj.
Qed.

Lemma stringify_DiaryData_nonempty (Number_toString : decimal → jsstring)
    (gap : jsstring) (d : DiaryData.t) :
  JSON_stringify Number_toString gap (js_of_DiaryData d) ≠ [].
Proof. by destruct (stringify_DiaryData_head Number_toString gap d) as [t ->]. Qed.

(** What [saveDiaryData] stores, [loadDiaryData] loads. *)
Lemma loadDiaryData_saveDiaryData (Number_toString : decimal → jsstring)
    (d : DiaryData.t) (store : localStorage) :
  loadDiaryData (saveDiaryData Number_toString d store)
  = Normal (js_of_DiaryData d).
Proof.
  unfold loadDiaryData, saveDiaryData. rewrite lookup_insert_eq.
  pose proof (stringify_DiaryData_nonempty Number_toString [] d) as Hne.
  destruct (JSON_stringify Number_toString [] (js_of_DiaryData d)) eqn:E;
    [done|].
  cbn [truthy_str negb]. rewrite <- E.
  by rewrite (JSON_parse_stringify Number_toString [] ws_only_nil
                (js_of_DiaryData d) (roundtrips_DiaryData d)).
Qed.

(** [exportToJson] returns the dataset with [lastBackupDate] stamped and
    nothing else changed, stores it, and names the file after the date
    part of the clock reading. *)
Lemma exportToJson_stamps (Number_toString : decimal → jsstring)
    (iso_name iso_stamp : jsstring) (d : DiaryData.t)
    (store : localStorage) :
  let '(a, newData, store') :=
    exportToJson Number_toString iso_name iso_stamp d store in
  DiaryData.cases newData = DiaryData.cases d
  ∧ DiaryData.advocateName newData = DiaryData.advocateName d
  ∧ DiaryData.lastBackupDate newData = Some iso_stamp
  ∧ loadDiaryData store' = Normal (js_of_DiaryData newData)
  ∧ filename a = js "diary_backup_" ++ before_T iso_name ++ js ".json".
Proof.
  unfold exportToJson. split_and!; try done.
  apply loadDiaryData_saveDiaryData.
Qed.

(** C4, as stated, fails for a blob that is valid JSON but not a
    dataset: the stored text [null] is returned as the value [null],
    which is not the default dataset, is the value of no dataset, and
    is what [importFromJson] rejects. *)
Lemma C4_counterexample_valid_json_not_a_dataset :
  let store : localStorage := {[ STORAGE_KEY := js "null" ]} in
  loadDiaryData store = Normal JNull
  ∧ loadDiaryData store ≠ Normal default_value
  ∧ (∀ d : DiaryData.t, js_of_DiaryData d ≠ JNull)
  ∧ importFromJson (js "null") = Normal None.
Proof.
  assert (loadDiaryData {[ STORAGE_KEY := js "null" ]} = Normal JNull) as H.
  { unfold loadDiaryData. by rewrite lookup_singleton_eq. }
  simpl. rewrite H. split; [done|]. split; [done|]. split; [done|].
  by vm_compute.
Qed.

(** C4, amended. [loadDiaryData] returns the default dataset when no
    blob is stored, and for every stored blob that is not valid JSON
    text it recovers locally and returns that same default; it never
    throws. A blob that is valid JSON is returned as parsed, with no
    check of its shape. *)
Theorem C4_load_fallback :
  ∀ store : localStorage,
    (store !! STORAGE_KEY = None →
     loadDiaryData store = Normal default_value)
    ∧ (∀ blob e, store !! STORAGE_KEY = Some blob →
                 JSON_parse blob = Throw e →
                 loadDiaryData store = Normal default_value)
    ∧ (∀ blob v, store !! STORAGE_KEY = Some blob →
                 JSON_parse blob = Normal v →
                 loadDiaryData store = Normal v)
    ∧ (∀ e, loadDiaryData store ≠ Throw e)
    ∧ default_value = js_of_DiaryData empty_diary.
Proof.
  intros store. unfold loadDiaryData. split; [|split; [|split; [|split]]].
  - by intros ->.
  - intros blob e -> Hp. destruct blob; [done|].
    cbn [truthy_str negb]. by rewrite Hp.
  - intros blob v -> Hp. destruct blob; [by vm_compute in Hp|].
    cbn [truthy_str negb]. by rewrite Hp.
  - intros e. destruct (store !! STORAGE_KEY) as [blob|]; [|done].
    destruct (negb (truthy_str blob)); [done|].
    by destruct (JSON_parse blob).
  - reflexivity.
Qed.

Lemma C4_witness :
  loadDiaryData ∅ = Normal default_value
  ∧ loadDiaryData {[ STORAGE_KEY := js "[1, 2" ]} = Normal default_value
  ∧ loadDiaryData {[ STORAGE_KEY := js "[1, 2]" ]}
    = Normal (JArr [JNum {| neg := false; mant := 1; exp10 := 0 |};
                    JNum {| neg := false; mant := 2; exp10 := 0 |}]).
Proof.
  split; [|split].
  - apply (proj1 (C4_load_fallback ∅)). reflexivity.
  - apply (proj1 (proj2 (C4_load_fallback {[ STORAGE_KEY := js "[1, 2" ]}))
             (js "[1, 2") SyntaxError).
    + apply lookup_singleton_eq.
    + by vm_compute.
  - apply (proj1 (proj2 (proj2
             (C4_load_fallback {[ STORAGE_KEY := js "[1, 2]" ]})))
             (js "[1, 2]")).
    + apply lookup_singleton_eq.
    + by vm_compute.
Defined.

(** * Further properties of the code *)

(** ** The store adapter and the reminder slot *)

Lemma storage_keys_differ : STORAGE_KEY ≠ BACKUP_REMINDER_KEY.
Proof. by vm_compute. Qed.

Lemma loadDiaryData_other_key (store : localStorage) k v :
  k ≠ STORAGE_KEY → loadDiaryData (<[k := v]> store) = loadDiaryData store.
Proof. intros H. unfold loadDiaryData. by rewrite lookup_insert_ne. Qed.

Lemma shouldShowBackupReminder_other_key (store : localStorage) k v now :
  k ≠ BACKUP_REMINDER_KEY →
  shouldShowBackupReminder (<[k := v]> store) now
  = shouldShowBackupReminder store now.
Proof.
  intros H. unfold shouldShowBackupReminder. by rewrite lookup_insert_ne.
Qed.

(** X1. What [saveDiaryData] writes, [loadDiaryData] reads back as the
    same dataset, whatever was stored before: a save replaces the whole
    document. *)
Theorem X1_save_then_load :
  ∀ (Number_toString : decimal → jsstring) (d d' : DiaryData.t)
    (store : localStorage),
    loadDiaryData (saveDiaryData Number_toString d store)
    = Normal (js_of_DiaryData d)
    ∧ saveDiaryData Number_toString d
        (saveDiaryData Number_toString d' store)
      = saveDiaryData Number_toString d store.
Proof.
  intros nts d d' store. split.
  - apply loadDiaryData_saveDiaryData.
  - unfold saveDiaryData. apply insert_insert_eq.
Qed.

(** X2. The dataset slot and the reminder slot do not interfere: saving
    the dataset leaves the decision of the reminder gate as it was, and
    recording a prompt (also through [dismissBackup]) leaves the dataset
    that [loadDiaryData] returns as it was. *)
Theorem X2_slots_do_not_interfere :
  ∀ (Number_toString : decimal → jsstring) (d : DiaryData.t)
    (store : localStorage) (now T : Z),
    shouldShowBackupReminder (saveDiaryData Number_toString d store) now
    = shouldShowBackupReminder store now
    ∧ loadDiaryData (markBackupReminderAsShown store T)
      = loadDiaryData store
    ∧ loadDiaryData (dismissBackup store T).2 = loadDiaryData store.
Proof.
  intros nts d store now T. pose proof storage_keys_differ as Hk.
  split; [|split].
  - by apply shouldShowBackupReminder_other_key.
  - apply loadDiaryData_other_key. congruence.
  - apply loadDiaryData_other_key. congruence.
Qed.

(** X3. [executePurge] resets the dataset to the empty one and opens the
    reminder gate, but leaves the stored document in place; it is the
    persistence effect, saving the new dataset, that makes
    [loadDiaryData] return the default dataset. *)
Theorem X3_purge_then_persist :
  ∀ (Number_toString : decimal → jsstring) (store : localStorage) (now : Z),
    (executePurge store).1 = empty_diary
    ∧ loadDiaryData (executePurge store).2 = loadDiaryData store
    ∧ shouldShowBackupReminder (executePurge store).2 now = true
    ∧ loadDiaryData
        (saveDiaryData Number_toString (executePurge store).1
                       (executePurge store).2)
      = Normal default_value
    ∧ shouldShowBackupReminder
        (saveDiaryData Number_toString (executePurge store).1
                       (executePurge store).2) now
      = true.
Proof.
  intros nts store now. pose proof storage_keys_differ as Hk.
  destruct (executePurge_resets store now) as [H1 H2].
  split_and!.
  - done.
  - unfold executePurge, loadDiaryData. cbn [snd].
    change (js "last_backup_prompt_ts") with BACKUP_REMINDER_KEY.
    by rewrite lookup_delete_ne.
  - done.
  - rewrite loadDiaryData_saveDiaryData, H1. reflexivity.
  - unfold saveDiaryData.
    by rewrite shouldShowBackupReminder_other_key.
Qed.

(** X4. [exportToJson] returns the dataset with [lastBackupDate] set to
    the clock reading and cases and name unchanged, and stores that
    copy; the file it offers holds the dataset as it was before the
    stamp. *)
Theorem X4_export_stamps_and_stores :
  ∀ (Number_toString : decimal → jsstring) (iso_name iso_stamp : jsstring)
    (d : DiaryData.t) (store : localStorage),
    let r := exportToJson Number_toString iso_name iso_stamp d store in
    r.1.2 = DiaryData.mk (DiaryData.cases d) (Some iso_stamp)
                         (DiaryData.advocateName d)
    ∧ loadDiaryData r.2 = Normal (js_of_DiaryData r.1.2)
    ∧ JSON_parse (readAsText (content r.1.1)) = Normal (js_of_DiaryData d).
Proof.
  intros nts iso_name iso_stamp d store r. subst r. split_and!.
  - done.
  - apply loadDiaryData_saveDiaryData.
  - rewrite readAsText_export.
    apply JSON_parse_stringify;
      [apply ws_only_two_spaces|apply roundtrips_DiaryData].
Qed.

Lemma before_T_date (date time : jsstring) :
  84 ∉ date → before_T (date ++ 84 :: time) = date.
Proof.
  induction date as [|c date IH]; intros H; [done|]. simpl.
  destruct (N.eqb_spec c 84) as [->|_]; [set_solver|].
  f_equal. apply IH. set_solver.
Qed.

(** X5. When the clock reading has the form date, [T], time, with no
    [T] in the date, the backup file is named [diary_backup_], the date,
    [.json]. *)
Theorem X5_export_filename :
  ∀ (Number_toString : decimal → jsstring) (date time iso_stamp : jsstring)
    (d : DiaryData.t) (store : localStorage),
    84 ∉ date →
    filename (exportToJson Number_toString (date ++ 84 :: time)
                           iso_stamp d store).1.1
    = js "diary_backup_" ++ date ++ js ".json".
Proof.
  intros nts date time iso_stamp d store H. unfold exportToJson.
  cbn [fst filename]. by rewrite before_T_date.
Qed.

Lemma X5_witness :
  filename (exportToJson (λ _, []) (js "2024-02-01T09:30:00.000Z")
                         (js "2024-02-01T09:30:00.001Z")
                         empty_diary ∅).1.1
  = js "diary_backup_2024-02-01.json".
Proof.
  apply (X5_export_filename (λ _, []) (js "2024-02-01")
           (js "09:30:00.000Z") (js "2024-02-01T09:30:00.001Z")
           empty_diary ∅).
  vm_compute. intros H. by repeat (apply elem_of_cons in H as [H|H]; [done|]);
    apply elem_of_nil in H.
Defined.

(** ** The reminder gate, further *)

(** X6. For every content of the store, once the reminder gate is open
    it stays open at every later time, until a prompt is recorded. *)
Theorem X6_reminder_stays_due :
  ∀ (store : localStorage) (now later : Z),
    (now ≤ later)%Z →
    shouldShowBackupReminder store now = true →
    shouldShowBackupReminder store later = true.
Proof.
  intros store now later Hle. unfold shouldShowBackupReminder.
  destruct (store !! BACKUP_REMINDER_KEY) as [s|]; [|done].
  destruct (negb (truthy_str s)); [done|].
  destruct (parseInt s) as [ts|]; [|done].
  rewrite !Z.ltb_lt. lia.
Qed.

Lemma X6_witness :
  shouldShowBackupReminder (markBackupReminderAsShown ∅ 1700000000000%Z)
                           1700086400002%Z = true.
Proof.
  apply (X6_reminder_stays_due
           (markBackupReminderAsShown ∅ 1700000000000%Z)
           1700086400001%Z 1700086400002%Z).
  - lia.
  - by vm_compute.
Defined.

(** X7. A reminder slot that holds the empty string opens the gate; a
    slot whose text starts with a character that is neither white
    space, nor a sign, nor a digit keeps the gate shut at every time,
    since no number is read from it. *)
Theorem X7_reminder_unreadable_slot :
  ∀ (store : localStorage) (now : Z),
    (store !! BACKUP_REMINDER_KEY = Some [] →
     shouldShowBackupReminder store now = true)
    ∧ (∀ c rest,
         store !! BACKUP_REMINDER_KEY = Some (c :: rest) →
         is_StrWhiteSpaceChar c = false → c ≠ 45 → c ≠ 43 →
         is_digit c = false →
         shouldShowBackupReminder store now = false).
Proof.
  intros store now. unfold shouldShowBackupReminder. split.
  - by intros ->.
  - intros c rest -> Hws Hm Hp Hd. cbn [truthy_str negb].
    unfold parseInt. rewrite trim_start_nonspace by done.
    destruct (N.eqb_spec c 45); [done|].
    destruct (N.eqb_spec c 43); [done|].
    cbn [span_digits]. by rewrite Hd.
Qed.

Lemma X7_witness :
  shouldShowBackupReminder {[ BACKUP_REMINDER_KEY := [] ]} 0%Z = true
  ∧ shouldShowBackupReminder {[ BACKUP_REMINDER_KEY := js "never" ]}
                             1700000000000%Z = false.
Proof.
  split.
  - apply (proj1 (X7_reminder_unreadable_slot
                    {[ BACKUP_REMINDER_KEY := [] ]} 0%Z)).
    apply lookup_singleton_eq.
  - apply (proj2 (X7_reminder_unreadable_slot
                    {[ BACKUP_REMINDER_KEY := js "never" ]} 1700000000000%Z)
             110 (js "ever")).
    + apply lookup_singleton_eq.
    + reflexivity.
    + by vm_compute.
    + by vm_compute.
    + reflexivity.
Defined.



(** ** Import, further *)

Section MergeFurther.
Implicit Types (c : LegalCase.t) (l cur inc : list LegalCase.t).

Lemma fold_import_ids_iff inc cur (k : jsstring) :
  k ∈ case_ids (fold_left import_step inc cur)
  ↔ k ∈ case_ids cur ∨ k ∈ case_ids inc.
Proof.
  revert cur. induction inc as [|c inc IH]; intros cur; simpl.
  - change (case_ids []) with (@nil jsstring). set_solver.
  - rewrite IH. change (case_ids (c :: inc))
      with (LegalCase.id c :: case_ids inc).
    destruct (import_step_cases cur c) as [[Hin ->]|[_ ->]].
    + set_solver.
    + rewrite case_ids_app.
      change (case_ids [c]) with [LegalCase.id c]. set_solver.
Qed.

Lemma fold_import_length inc cur :
  (length (fold_left import_step inc cur) ≤ length cur + length inc)%nat.
Proof.
  revert cur. induction inc as [|c inc IH]; intros cur; simpl; [lia|].
  etrans; [apply IH|].
  destruct (import_step_cases cur c) as [[_ ->]|[_ ->]];
    [lia|rewrite length_app; simpl; lia].
Qed.

(** Incoming cases with pairwise distinct ids, none of them present,
    are all appended, in their order. *)
Lemma fold_import_disjoint inc cur :
  NoDup (case_ids inc) →
  (∀ k, k ∈ case_ids inc → k ∉ case_ids cur) →
  fold_left import_step inc cur = cur ++ inc.
Proof.
  revert cur. induction inc as [|c inc IH]; intros cur Hnd Hdis; simpl.
  - by rewrite app_nil_r.
  - unfold case_ids in Hnd. rewrite fmap_cons in Hnd.
    apply NoDup_cons in Hnd as [Hc Hnd].
    rewrite import_step_absent
      by (apply Hdis; unfold case_ids; rewrite fmap_cons; set_solver).
    rewrite IH; [by rewrite <- app_assoc|done|].
    intros k Hk. rewrite case_ids_app. simpl. intros Hin.
    apply elem_of_app in Hin as [Hin|Hin].
    + apply (Hdis k); [|done]. unfold case_ids. rewrite fmap_cons.
      set_solver.
    + apply list_elem_of_singleton in Hin. subst. done.
Qed.

End MergeFurther.

(** X9. The ids of the merged case list are exactly the ids of the
    current cases together with the ids of the incoming cases, and the
    merged list is no longer than the two lists together. *)
Theorem X9_merge_ids_are_the_union :
  ∀ (current incoming : DiaryData.t) (k : jsstring),
    (k ∈ case_ids (DiaryData.cases (executeImport (Some incoming) current))
     ↔ k ∈ case_ids (DiaryData.cases current)
       ∨ k ∈ case_ids (DiaryData.cases incoming))
    ∧ (length (DiaryData.cases (executeImport (Some incoming) current))
       ≤ length (DiaryData.cases current)
         + length (DiaryData.cases incoming))%nat.
Proof.
  intros current incoming k. simpl. split.
  - apply fold_import_ids_iff.
  - apply fold_import_length.
Qed.

(** X10. Importing a dataset into itself changes nothing; and when the
    incoming ids are pairwise distinct and none of them is an id of the
    current dataset, the merged case list is the current list followed
    by the whole incoming list. *)
Theorem X10_merge_self_and_disjoint :
  ∀ current incoming : DiaryData.t,
    executeImport (Some current) current = current
    ∧ (NoDup (case_ids (DiaryData.cases incoming)) →
       (∀ k, k ∈ case_ids (DiaryData.cases incoming) →
             k ∉ case_ids (DiaryData.cases current)) →
       DiaryData.cases (executeImport (Some incoming) current)
       = DiaryData.cases current ++ DiaryData.cases incoming).
Proof.
  intros current incoming. split.
  - destruct current as [cs lb name]. unfold executeImport. simpl.
    rewrite fold_import_noop.
    + f_equal. unfold str_or. by destruct name.
    + intros c Hc. unfold case_ids. apply list_elem_of_fmap. eauto.
  - intros Hnd Hdis. simpl. by apply fold_import_disjoint.
Qed.

Lemma X10_witness :
  DiaryData.cases
    (executeImport
       (Some (DiaryData.mk [sample_case (js "B") (js "Second");
                            sample_case (js "C") (js "Third")]
                           None (js "Counsel")))
       (DiaryData.mk [sample_case (js "A") (js "First")] None
                     (js "Counsel")))
  = [sample_case (js "A") (js "First");
     sample_case (js "B") (js "Second");
     sample_case (js "C") (js "Third")].
Proof.
  apply (proj2 (X10_merge_self_and_disjoint
           (DiaryData.mk [sample_case (js "A") (js "First")] None
                         (js "Counsel"))
           (DiaryData.mk [sample_case (js "B") (js "Second");
                          sample_case (js "C") (js "Third")]
                         None (js "Counsel")))).
  - simpl. apply NoDup_cons. split.
    + rewrite list_elem_of_singleton. by vm_compute.
    + apply NoDup_singleton.
  - simpl. intros k Hk Hin. apply list_elem_of_singleton in Hin. subst k.
    apply elem_of_cons in Hk as [Hk|Hk]; [by vm_compute in Hk|].
    apply list_elem_of_singleton in Hk. by vm_compute in Hk.
Defined.

(** The outcomes of [handleFileSelection]. *)
Lemma handleFileSelection_accepts bytes v pending :
  JSON_parse (readAsText bytes) = Normal v → has_cases_array v →
  handleFileSelection (Some (Some bytes)) pending = Normal (Some v, None).
Proof.
  intros Hp Hs. unfold handleFileSelection.
  destruct (importFromJson_parsed _ _ Hp) as [[_ ->]|[Hn _]]; [|done].
  destruct Hs as (props & elems & -> & _). reflexivity.
Qed.

(** X11. [handleFileSelection] never throws. With no file chosen it
    changes nothing; when the file cannot be read, is not valid JSON, or
    is not an object whose [cases] is an array, it raises an alert and
    leaves the staged import as it was; otherwise it stages the parsed
    value and raises no alert. *)
Theorem X11_file_selection_outcomes :
  ∀ (file : option (option jsstring)) (pending : option JsValue),
    ∃ staged alert,
      handleFileSelection file pending = Normal (staged, alert)
      ∧ ((file = None ∧ staged = pending ∧ alert = None)
         ∨ (is_Some alert ∧ staged = pending
            ∧ ∀ bytes v, file = Some (Some bytes) →
                         JSON_parse (readAsText bytes) = Normal v →
                         ¬ has_cases_array v)
         ∨ (∃ bytes v, file = Some (Some bytes)
                       ∧ JSON_parse (readAsText bytes) = Normal v
                       ∧ has_cases_array v
                       ∧ staged = Some v ∧ alert = None)).
Proof.
  intros [[bytes|]|] pending.
  - destruct (JSON_parse (readAsText bytes)) as [v|e] eqn:Hp.
    + destruct (importFromJson_parsed _ _ Hp) as [[Hs Hi]|[Hs Hi]].
      * exists (Some v), None. split.
        { by apply handleFileSelection_accepts. }
        right. right. by exists bytes, v.
      * eexists pending, (Some _). split.
        { unfold handleFileSelection. rewrite Hi. reflexivity. }
        right. left. split; [by eexists|]. split; [done|].
        intros b v' [= <-] Hp'. rewrite Hp in Hp'. by injection Hp' as <-.
    + eexists pending, (Some _). split.
      { unfold handleFileSelection.
        rewrite (importFromJson_failed _ _ Hp). reflexivity. }
      right. left. split; [by eexists|]. split; [done|].
      intros b v' [= <-] Hp'. by rewrite Hp in Hp'.
  - eexists pending, (Some _). split; [reflexivity|].
    right. left. split; [by eexists|]. split; [done|]. by intros b v' [=].
  - exists pending, None. split; [reflexivity|]. by left.
Qed.

(** X12. Backup and restore: the file that [exportToJson] writes for a
    dataset is accepted by [handleFileSelection], which stages the
    run-time value of that dataset; confirming the import on a purged
    diary brings back the whole case list when its ids are pairwise
    distinct, and the name when it is not empty, but not
    [lastBackupDate]. *)
Theorem X12_backup_then_restore :
  ∀ (Number_toString : decimal → jsstring) (iso_name iso_stamp : jsstring)
    (D : DiaryData.t) (store store' : localStorage)
    (pending : option JsValue),
    NoDup (case_ids (DiaryData.cases D)) →
    handleFileSelection
      (Some (Some (content (exportToJson Number_toString iso_name
                                         iso_stamp D store).1.1)))
      pending
    = Normal (Some (js_of_DiaryData D), None)
    ∧ executeImport (Some D) (executePurge store').1
      = DiaryData.mk (DiaryData.cases D) None
                     (str_or (DiaryData.advocateName D) (js "Counsel")).
Proof.
  intros nts iso_name iso_stamp D store store' pending Hnd. split.
  - apply handleFileSelection_accepts.
    + rewrite readAsText_export. apply JSON_parse_stringify;
        [apply ws_only_two_spaces|apply roundtrips_DiaryData].
    + eexists _, _. split; [reflexivity|]. reflexivity.
  - unfold executeImport, executePurge. cbn [fst DiaryData.cases
      DiaryData.lastBackupDate DiaryData.advocateName].
    f_equal. rewrite fold_import_disjoint; [done|done|].
    intros k _. apply not_elem_of_nil.
Qed.

Lemma X12_witness :
  executeImport
    (Some (DiaryData.mk [sample_case (js "A") (js "First")]
                        (Some (js "2024-02-01T09:30:00.000Z"))
                        (js "Adv. Rao")))
    (executePurge ∅).1
  = DiaryData.mk [sample_case (js "A") (js "First")] None (js "Adv. Rao").
Proof.
  apply (λ H, proj2 (X12_backup_then_restore (λ _, []) [] []
           (DiaryData.mk [sample_case (js "A") (js "First")]
                         (Some (js "2024-02-01T09:30:00.000Z"))
                         (js "Adv. Rao")) ∅ ∅ None H)).
  simpl. apply NoDup_singleton.
Defined.

(** ** Saving and deleting a case, further *)

Section UpdatersFurther.
Implicit Types (c : LegalCase.t) (l : list LegalCase.t) (d : DiaryData.t).

Lemma selectedCase_by_id d (k : jsstring) :
  selectedCase d (Some k)
  = array_find (λ c, LegalCase.id c = k) (DiaryData.cases d).
Proof.
  unfold selectedCase, array_find. f_equal.
  apply list_find_ext. intros c. split; [by intros [= ->]|by intros ->].
Qed.

Lemma array_find_cons {A} (P : A → Prop) `{∀ x, Decision (P x)} x (l : list A) :
  array_find P (x :: l) = if decide (P x) then Some x else array_find P l.
Proof.
  unfold array_find. cbn [list_find]. case_decide; [done|].
  by destruct (list_find P l) as [[i y]|].
Qed.

(** Replacing an element that does not satisfy [P] by another one that
    does not leaves the first element satisfying [P] as it was. *)
Lemma array_find_insert_other {A} (P : A → Prop) `{∀ x, Decision (P x)}
    (l : list A) i x y :
  l !! i = Some x → ¬ P x → ¬ P y →
  array_find P (<[i := y]> l) = array_find P l.
Proof.
  revert i. induction l as [|z l IH]; intros i Hi Hx Hy; [done|].
  destruct i as [|i]; simpl in Hi.
  - injection Hi as ->. change (<[0%nat:=y]> (x :: l)) with (y :: l).
    rewrite !array_find_cons.
    rewrite (decide_False (P:=P y)) by done.
    by rewrite (decide_False (P:=P x)) by done.
  - change (<[S i:=y]> (z :: l)) with (z :: <[i:=y]> l).
    rewrite !array_find_cons.
    case_decide; [done|]. by apply IH.
Qed.

Lemma addOrUpdateCase_find c d :
  array_find (λ x, LegalCase.id x = LegalCase.id c)
             (DiaryData.cases (addOrUpdateCase c d)) = Some c.
Proof.
  unfold array_find.
  destruct (addOrUpdateCase_cases c d)
    as [(i & x & Hi & Hx & Hlt & ->)|[Habs ->]].
  - assert (list_find (λ x0, LegalCase.id x0 = LegalCase.id c)
              (<[i:=c]> (DiaryData.cases d)) = Some (i, c)) as ->; [|done].
    apply list_find_Some. split; [|split; [done|]].
    + apply list_lookup_insert_eq. by eapply lookup_lt_Some.
    + intros j y Hj Hlt'. rewrite list_lookup_insert_ne in Hj by lia.
      by apply (Hlt j).
  - simpl. by rewrite decide_True.
Qed.

Lemma addOrUpdateCase_find_other c d (k : jsstring) :
  k ≠ LegalCase.id c →
  array_find (λ x, LegalCase.id x = k)
             (DiaryData.cases (addOrUpdateCase c d))
  = array_find (λ x, LegalCase.id x = k) (DiaryData.cases d).
Proof.
  intros Hk.
  destruct (addOrUpdateCase_cases c d)
    as [(i & x & Hi & Hx & Hlt & ->)|[Habs ->]].
  - apply (array_find_insert_other _ _ i x c); [done| |]; congruence.
  - rewrite array_find_cons. by rewrite decide_False by congruence.
Qed.

Lemma filter_other_ids l (k : jsstring) :
  k ∉ case_ids l → filter (λ c, LegalCase.id c ≠ k) l = l.
Proof.
  induction l as [|x l IH]; intros H; [done|].
  change (case_ids (x :: l)) with (LegalCase.id x :: case_ids l) in H.
  rewrite filter_cons. rewrite decide_True by set_solver.
  f_equal. apply IH. set_solver.
Qed.

Lemma filter_id_length l (k : jsstring) :
  NoDup (case_ids l) → k ∈ case_ids l →
  S (length (filter (λ c, LegalCase.id c ≠ k) l)) = length l.
Proof.
  induction l as [|x l IH]; intros Hnd Hk.
  - by apply elem_of_nil in Hk.
  - change (case_ids (x :: l)) with (LegalCase.id x :: case_ids l) in *.
    apply NoDup_cons in Hnd as [Hx Hnd]. rewrite filter_cons.
    destruct (decide (LegalCase.id x ≠ k)) as [Hne|Heq].
    + simpl. f_equal. apply IH; [done|]. set_solver.
    + assert (LegalCase.id x = k) as <-
        by (destruct (decide (LegalCase.id x = k)); [done|by elim Heq]).
      by rewrite filter_other_ids.
Qed.

End UpdatersFurther.

(** X13. After [addOrUpdateCase] the case found under the id of the
    saved case is the saved case, and the case found under any other id
    is the one found before; the list keeps its length when the id was
    present and grows by one when it was not; [lastBackupDate] and
    [advocateName] are untouched. *)
Theorem X13_save_then_select :
  ∀ (c : LegalCase.t) (d : DiaryData.t),
    selectedCase (addOrUpdateCase c d) (Some (LegalCase.id c)) = Some c
    ∧ (∀ k, k ≠ LegalCase.id c →
            selectedCase (addOrUpdateCase c d) (Some k)
            = selectedCase d (Some k))
    ∧ (LegalCase.id c ∈ case_ids (DiaryData.cases d) →
       length (DiaryData.cases (addOrUpdateCase c d))
       = length (DiaryData.cases d))
    ∧ (LegalCase.id c ∉ case_ids (DiaryData.cases d) →
       length (DiaryData.cases (addOrUpdateCase c d))
       = S (length (DiaryData.cases d)))
    ∧ DiaryData.lastBackupDate (addOrUpdateCase c d)
      = DiaryData.lastBackupDate d
    ∧ DiaryData.advocateName (addOrUpdateCase c d)
      = DiaryData.advocateName d.
Proof.
  intros c d. split_and!; try done.
  - rewrite selectedCase_by_id. apply addOrUpdateCase_find.
  - intros k Hk. rewrite !selectedCase_by_id.
    by apply addOrUpdateCase_find_other.
  - intros Hin.
    destruct (addOrUpdateCase_cases c d)
      as [(i & x & _ & _ & _ & ->)|[Habs _]]; [|done].
    apply length_insert.
  - intros Habs. by rewrite addOrUpdateCase_fresh.
Qed.

Lemma X13_witness :
  length (DiaryData.cases
            (addOrUpdateCase (sample_case (js "A") (js "New"))
               (DiaryData.mk [sample_case (js "B") (js "Other");
                              sample_case (js "A") (js "Old")]
                             None (js "Counsel"))))
  = 2%nat.
Proof.
  apply (proj1 (proj2 (proj2
           (X13_save_then_select
              (sample_case (js "A") (js "New"))
              (DiaryData.mk [sample_case (js "B") (js "Other");
                             sample_case (js "A") (js "Old")]
                            None (js "Counsel")))))).
  simpl. right. left.
Defined.

(** X14. Of two saves under the same id the later one wins: the
    dataset is the one that the second save alone would give. *)
Theorem X14_last_save_wins :
  ∀ (c1 c2 : LegalCase.t) (d : DiaryData.t),
    LegalCase.id c1 = LegalCase.id c2 →
    addOrUpdateCase c2 (addOrUpdateCase c1 d) = addOrUpdateCase c2 d.
Proof.
  intros c1 c2 d Hid.
  assert (DiaryData.cases (addOrUpdateCase c2 (addOrUpdateCase c1 d))
          = DiaryData.cases (addOrUpdateCase c2 d)) as Hcases.
  { destruct (addOrUpdateCase_cases c1 d)
      as [(i & x & Hi & Hx & Hlt & Hc1)|[Habs Hc1]].
    - rewrite (addOrUpdateCase_found c2 (addOrUpdateCase c1 d) i c1).
      + rewrite Hc1, list_insert_insert_eq.
        symmetry. apply (addOrUpdateCase_found c2 d i x).
        apply list_find_Some. split; [done|]. split; [congruence|].
        intros j y Hj Hlt'. rewrite <- Hid. by apply (Hlt j).
      + rewrite Hc1. apply list_find_Some. split; [|split; [done|]].
        * apply list_lookup_insert_eq. by eapply lookup_lt_Some.
        * intros j y Hj Hlt'. rewrite list_lookup_insert_ne in Hj by lia.
          rewrite <- Hid. by apply (Hlt j).
    - rewrite (addOrUpdateCase_found c2 (addOrUpdateCase c1 d) 0 c1).
      + rewrite Hc1. simpl. symmetry. apply addOrUpdateCase_fresh.
        by rewrite <- Hid.
      + rewrite Hc1. simpl. by rewrite decide_True. }
  destruct (addOrUpdateCase c2 (addOrUpdateCase c1 d)) eqn:E1.
  destruct (addOrUpdateCase c2 d) eqn:E2.
  simpl in Hcases. subst.
  assert (DiaryData.lastBackupDate
            (addOrUpdateCase c2 (addOrUpdateCase c1 d))
          = DiaryData.lastBackupDate (addOrUpdateCase c2 d)) as Hlb by done.
  assert (DiaryData.advocateName
            (addOrUpdateCase c2 (addOrUpdateCase c1 d))
          = DiaryData.advocateName (addOrUpdateCase c2 d)) as Hname by done.
  rewrite E1, E2 in Hlb, Hname. simpl in *. by subst.
Qed.

Lemma X14_witness :
  addOrUpdateCase (sample_case (js "A") (js "Second"))
    (addOrUpdateCase (sample_case (js "A") (js "First")) empty_diary)
  = addOrUpdateCase (sample_case (js "A") (js "Second")) empty_diary.
Proof.
  apply (X14_last_save_wins (sample_case (js "A") (js "First"))
           (sample_case (js "A") (js "Second")) empty_diary).
  reflexivity.
Defined.

(** X15. [confirmDelete] keeps exactly the cases whose id differs from
    the id of the deleted case, in their order; no case is found under
    the deleted id any more; deleting again changes nothing; and when
    the ids are pairwise distinct and the id is present, the list
    shrinks by exactly one. With nothing to delete the dataset is
    unchanged. *)
Theorem X15_delete_removes_the_id :
  ∀ (target : LegalCase.t) (d : DiaryData.t),
    (∀ x, x ∈ DiaryData.cases (confirmDelete (Some target) d)
          ↔ x ∈ DiaryData.cases d ∧ LegalCase.id x ≠ LegalCase.id target)
    ∧ DiaryData.cases (confirmDelete (Some target) d)
      `sublist_of` DiaryData.cases d
    ∧ selectedCase (confirmDelete (Some target) d)
                   (Some (LegalCase.id target)) = None
    ∧ confirmDelete (Some target) (confirmDelete (Some target) d)
      = confirmDelete (Some target) d
    ∧ (NoDup (case_ids (DiaryData.cases d)) →
       LegalCase.id target ∈ case_ids (DiaryData.cases d) →
       S (length (DiaryData.cases (confirmDelete (Some target) d)))
       = length (DiaryData.cases d))
    ∧ confirmDelete None d = d.
Proof.
  intros target d. split_and!.
  - intros x. simpl. rewrite list_elem_of_filter. tauto.
  - apply sublist_filter.
  - rewrite selectedCase_by_id. apply array_find_id_None.
    apply confirmDelete_removes.
  - unfold confirmDelete. simpl. f_equal.
    apply filter_other_ids. apply (confirmDelete_removes target d).
  - intros Hnd Hin. simpl. by apply filter_id_length.
  - done.
Qed.

Lemma X15_witness :
  S (length (DiaryData.cases
               (confirmDelete (Some (sample_case (js "A") (js "Old")))
                  (DiaryData.mk [sample_case (js "B") (js "Other");
                                 sample_case (js "A") (js "Old")]
                                None (js "Counsel")))))
  = 2%nat.
Proof.
  apply (proj1 (proj2 (proj2 (proj2 (proj2
           (X15_delete_removes_the_id
              (sample_case (js "A") (js "Old"))
              (DiaryData.mk [sample_case (js "B") (js "Other");
                             sample_case (js "A") (js "Old")]
                            None (js "Counsel")))))))).
  - simpl. apply NoDup_cons. split.
    + rewrite list_elem_of_singleton. by vm_compute.
    + apply NoDup_singleton.
  - simpl. right. left.
Defined.

(** X16. Saving a case under an id that is not in the dataset and then
    deleting it gives the dataset back. *)
Theorem X16_save_then_delete :
  ∀ (c : LegalCase.t) (d : DiaryData.t),
    LegalCase.id c ∉ case_ids (DiaryData.cases d) →
    confirmDelete (Some c) (addOrUpdateCase c d) = d.
Proof.
  intros c d Habs. unfold confirmDelete.
  rewrite (addOrUpdateCase_fresh c d Habs).
  rewrite filter_cons, decide_False by (intros H; by apply H).
  rewrite filter_other_ids by done. by destruct d.
Qed.

Lemma X16_witness :
  confirmDelete (Some (sample_case (js "A") (js "New")))
    (addOrUpdateCase (sample_case (js "A") (js "New"))
       (DiaryData.mk [sample_case (js "B") (js "Other")] None
                     (js "Counsel")))
  = DiaryData.mk [sample_case (js "B") (js "Other")] None (js "Counsel").
Proof.
  apply (X16_save_then_delete (sample_case (js "A") (js "New"))
           (DiaryData.mk [sample_case (js "B") (js "Other")] None
                         (js "Counsel"))).
  simpl. rewrite list_elem_of_singleton. by vm_compute.
Defined.

(** X17. Along any sequence of the transitions of [data] (backup,
    import, purge, save, delete, rename) a dataset with pairwise
    distinct case ids keeps them pairwise distinct; in particular every
    dataset reached from the empty diary has them. *)
Theorem X17_ids_distinct_along_every_run :
  ∀ (Number_toString : decimal → jsstring) (d d' : DiaryData.t),
    NoDup (case_ids (DiaryData.cases d)) →
    rtc (data_step Number_toString) d d' →
    NoDup (case_ids (DiaryData.cases d')).
Proof.
  intros nts d d' Hnd Hrun. induction Hrun as [|d1 d2 d3 Hstep _ IH]; [done|].
  apply IH. destruct Hstep.
  - done.
  - destruct pendingImportData as [pending|]; [|done]. simpl.
    by apply fold_import_NoDup.
  - simpl. apply NoDup_nil_2.
  - by apply addOrUpdateCase_NoDup.
  - by apply confirmDelete_NoDup.
  - done.
Qed.

Lemma X17_witness :
  NoDup (case_ids
           (DiaryData.cases
              (confirmDelete (Some (sample_case (js "B") (js "Other")))
                 (addOrUpdateCase (sample_case (js "A") (js "New"))
                                  empty_diary)))).
Proof.
  apply (X17_ids_distinct_along_every_run (λ _, []) empty_diary).
  - simpl. apply NoDup_nil_2.
  - eapply rtc_l; [apply (step_save _ (sample_case (js "A") (js "New")))|].
    apply rtc_once.
    apply (step_delete _ (Some (sample_case (js "B") (js "Other")))).
Defined.

(** ** The case form, further *)



(** X19. The form saves nothing exactly when the title or the court is
    empty. What it saves carries the fields of the form; on an edit it
    keeps the id and the creation time of the case when they are not
    empty; for a new case it takes a fresh identifier and the current
    time, starts with an empty history, and [addOrUpdateCase] puts it in
    front of the list when the identifier is not in use. *)
Theorem X19_form_saves :
  ∀ (pf : Platform) (initialData : option LegalCase.t)
    (st : CaseForm.state),
    (CaseForm.handleSubmit pf initialData st = None
     ↔ CaseForm.title st = [] ∨ CaseForm.court st = [])
    ∧ ∀ saved,
        CaseForm.handleSubmit pf initialData st = Some saved →
        LegalCase.title saved = CaseForm.title st
        ∧ LegalCase.referenceNumber saved = CaseForm.refNum st
        ∧ LegalCase.courtName saved = CaseForm.court st
        ∧ LegalCase.description saved = CaseForm.desc st
        ∧ LegalCase.status saved = CaseForm.status st
        ∧ LegalCase.nextHearingDate saved = CaseForm.nextDate st
        ∧ (∀ c, initialData = Some c →
                (LegalCase.id c ≠ [] → LegalCase.id saved = LegalCase.id c)
                ∧ (LegalCase.createdAt c ≠ [] →
                   LegalCase.createdAt saved = LegalCase.createdAt c))
        ∧ (initialData = None →
           LegalCase.id saved = uuid_case pf
           ∧ LegalCase.createdAt saved = now_iso pf
           ∧ LegalCase.history saved = []
           ∧ ∀ d, uuid_case pf ∉ case_ids (DiaryData.cases d) →
                  DiaryData.cases (addOrUpdateCase saved d)
                  = saved :: DiaryData.cases d).
Proof.
  intros pf initialData st. unfold CaseForm.handleSubmit. split.
  - destruct (CaseForm.title st), (CaseForm.court st); simpl;
      split; try done; try tauto; intros [?|?]; done.
  - intros saved H.
    destruct (negb _ || negb _); [done|]. injection H as <-.
    split_and!; try done.
    + intros c ->. cbn [LegalCase.id LegalCase.createdAt].
      unfold str_or. split; intros Hne.
      * by destruct (LegalCase.id c).
      * by destruct (LegalCase.createdAt c).
    + intros ->. split_and!; try done.
      intros d Hfresh. by apply addOrUpdateCase_fresh.
Qed.

Lemma X19_witness :
  LegalCase.id
    (LegalCase.mk (uuid_case sample_platform) (js "State vs John Doe") []
                  (js "High Court") [] ONGOING [] []
                  (now_iso sample_platform))
  = uuid_case sample_platform.
Proof.
  apply (λ H, proj1 (proj2 (proj2 (proj2 (proj2 (proj2 (proj2 (proj2
           (proj2 (X19_form_saves sample_platform None
                     (CaseForm.mk (js "State vs John Doe") []
                                  (js "High Court") [] ONGOING [] []))
                  (LegalCase.mk (uuid_case sample_platform)
                                (js "State vs John Doe") []
                                (js "High Court") [] ONGOING [] []
                                (now_iso sample_platform)) H)))))))
           eq_refl)).
  reflexivity.
Defined.

(** X20. Opening the form on a case of the dataset and submitting it
    untouched saves that very case and leaves the dataset as it is,
    provided the case has a title, a court, an id and a creation time
    and the ids of the dataset are pairwise distinct. *)
Theorem X20_untouched_edit_changes_nothing :
  ∀ (pf : Platform) (c : LegalCase.t) (d : DiaryData.t),
    LegalCase.title c ≠ [] → LegalCase.courtName c ≠ [] →
    LegalCase.id c ≠ [] → LegalCase.createdAt c ≠ [] →
    NoDup (case_ids (DiaryData.cases d)) →
    c ∈ DiaryData.cases d →
    CaseForm.handleSubmit pf (Some c) (CaseForm.init (Some c)) = Some c
    ∧ addOrUpdateCase c d = d.
Proof.
  intros pf c d Ht Hc Hi Hca Hnd Hin. split.
  - by apply handleSubmit_init_unchanged.
  - apply list_elem_of_lookup in Hin as [i Hi'].
    assert (DiaryData.cases (addOrUpdateCase c d) = DiaryData.cases d)
      as Hcases.
    { rewrite (addOrUpdateCase_found c d i c).
      - by apply list_insert_id.
      - apply list_find_Some. split; [done|]. split; [done|].
        intros j y Hj Hlt Heq. assert (j = i); [|lia].
        apply (NoDup_lookup _ _ _ (LegalCase.id c) Hnd);
          unfold case_ids; rewrite list_lookup_fmap.
        + rewrite Hj. simpl. by rewrite Heq.
        + by rewrite Hi'. }
    destruct d as [cs lb name]. unfold addOrUpdateCase in *. simpl in *.
    by rewrite Hcases.
Qed.

Lemma X20_witness :
  addOrUpdateCase (sample_case (js "A") (js "State vs John Doe"))
    (DiaryData.mk [sample_case (js "B") (js "Other");
                   sample_case (js "A") (js "State vs John Doe")]
                  None (js "Counsel"))
  = DiaryData.mk [sample_case (js "B") (js "Other");
                  sample_case (js "A") (js "State vs John Doe")]
                 None (js "Counsel").
Proof.
  apply (X20_untouched_edit_changes_nothing sample_platform
           (sample_case (js "A") (js "State vs John Doe"))
           (DiaryData.mk [sample_case (js "B") (js "Other");
                          sample_case (js "A") (js "State vs John Doe")]
                         None (js "Counsel"))).
  - by vm_compute.
  - by vm_compute.
  - by vm_compute.
  - by vm_compute.
  - simpl. apply NoDup_cons. split.
    + rewrite list_elem_of_singleton. by vm_compute.
    + apply NoDup_singleton.
  - simpl. right. left.
Defined.

(** ** The dashboard lists *)

Section DashboardLists.
Variable Date_getTime : jsstring → option Z.



Lemma upcoming_elem today sortedCases c :
  c ∈ upcomingHearings Date_getTime today sortedCases
  ↔ c ∈ sortedCases
    ∧ LegalCase.nextHearingDate c ≠ []
    ∧ (∃ t, Date_getTime (LegalCase.nextHearingDate c) = Some t
            ∧ (today ≤ t)%Z)
    ∧ LegalCase.status c = ONGOING.
Proof.
  unfold upcomingHearings. rewrite list_elem_of_filter.
  rewrite !andb_true_iff, bool_decide_eq_true. unfold date_ge.
  destruct (LegalCase.nextHearingDate c) as [|a s] eqn:E; simpl.
  - naive_solver.
  - destruct (Date_getTime (a :: s)) as [t|].
    + rewrite Z.leb_le. naive_solver.
    + naive_solver.
Qed.

Lemma overdue_elem today sortedCases c :
  c ∈ overdueHearings Date_getTime today sortedCases
  ↔ c ∈ sortedCases
    ∧ LegalCase.nextHearingDate c ≠ []
    ∧ (∃ t, Date_getTime (LegalCase.nextHearingDate c) = Some t
            ∧ (t < today)%Z)
    ∧ LegalCase.status c = ONGOING.
Proof.
  unfold overdueHearings. rewrite list_elem_of_filter.
  rewrite !andb_true_iff, bool_decide_eq_true. unfold date_lt.
  destruct (LegalCase.nextHearingDate c) as [|a s] eqn:E; simpl.
  - naive_solver.
  - destruct (Date_getTime (a :: s)) as [t|].
    + rewrite Z.ltb_lt. naive_solver.
    + naive_solver.
Qed.

End DashboardLists.

(** X21. No case is both upcoming and overdue. An ongoing case with a
    date that the platform can read is upcoming when the date is not
    before today and overdue when it is; a case that is not ongoing, has
    no date, or has a date that cannot be read is in neither list. Both
    lists keep the order of the sorted cases. *)
Theorem X21_upcoming_and_overdue :
  ∀ (Date_getTime : jsstring → option Z) (today : Z)
    (sortedCases : list LegalCase.t) (c : LegalCase.t),
    let upcoming := upcomingHearings Date_getTime today sortedCases in
    let overdue := overdueHearings Date_getTime today sortedCases in
    ¬ (c ∈ upcoming ∧ c ∈ overdue)
    ∧ (∀ t, c ∈ sortedCases → LegalCase.status c = ONGOING →
            LegalCase.nextHearingDate c ≠ [] →
            Date_getTime (LegalCase.nextHearingDate c) = Some t →
            (c ∈ upcoming ↔ (today ≤ t)%Z) ∧ (c ∈ overdue ↔ (t < today)%Z))
    ∧ (LegalCase.status c ≠ ONGOING
       ∨ LegalCase.nextHearingDate c = []
       ∨ Date_getTime (LegalCase.nextHearingDate c) = None →
       (c ∉ upcoming) ∧ (c ∉ overdue))
    ∧ upcoming `sublist_of` sortedCases
    ∧ overdue `sublist_of` sortedCases.
Proof.
  intros Date_getTime today sortedCases c upcoming overdue.
  subst upcoming overdue. split_and!.
  - rewrite upcoming_elem, overdue_elem.
    intros [(_ & _ & (t & Ht & Hle) & _) (_ & _ & (t' & Ht' & Hlt) & _)].
    rewrite Ht in Ht'. injection Ht' as <-. lia.
  - intros t Hin Hst Hdate Ht. rewrite upcoming_elem, overdue_elem.
    split; split.
    + intros (_ & _ & (t' & Ht' & Hle) & _). rewrite Ht in Ht'.
      by injection Ht' as <-.
    + intros Hle. eauto 10.
    + intros (_ & _ & (t' & Ht' & Hlt) & _). rewrite Ht in Ht'.
      by injection Ht' as <-.
    + intros Hlt. eauto 10.
  - rewrite upcoming_elem, overdue_elem.
    intros [H|[H|H]]; split; intros (_ & Hd & (t & Ht & _) & Hs);
      congruence.
  - apply sublist_filter.
  - apply sublist_filter.
Qed.

Lemma X21_witness :
  let getTime (s : jsstring) := Some (Z.of_nat (length s)) in
  (sample_case (js "A") (js "Old")
   ∉ upcomingHearings getTime 5%Z [sample_case (js "A") (js "Old")])
  ∧ (sample_case (js "A") (js "Old")
     ∉ overdueHearings getTime 5%Z [sample_case (js "A") (js "Old")]).
Proof.
  intros getTime.
  apply (proj1 (proj2 (proj2
           (X21_upcoming_and_overdue getTime 5%Z
              [sample_case (js "A") (js "Old")]
              (sample_case (js "A") (js "Old")))))).
  right. left. reflexivity.
Defined.


